(** * Call-signature normalizer: [cleanup.py] and [fix_test.py]

    The two scripts read [test/SimpleDEX.test.js], push its text through a
    fixed sequence of [re.sub] / [str.replace] passes and write it back.
    This development embeds

    - Python text as a list of code points,
    - the fragment of the [re] pattern language the scripts use (literals,
      one-character classes, greedy [*] and [+] over a class, unquantified
      groups), executed by a backtracking matcher that tries alternatives in
      the order of the [re] engine,
    - the left-to-right, non-overlapping substitution loop shared by [re.sub]
      and [str.replace],

    and states the properties of the normalizer over these definitions. *)

From Stdlib Require Import NArith Lia List Ascii String.
From stdpp Require Import base option list strings.
Import ListNotations.

Local Open Scope nat_scope.

(* ===================================================================== *)
(** ** Text *)

(** A Python [str] is a sequence of code points. *)
Definition char := N.
Definition text := list char.

(** The text of a literal written in the scripts. *)
Definition str (s : string) : text :=
  map N_of_ascii (list_ascii_of_string s).
Global Arguments str : simpl never.

(** The escape [\n] of the Python literals. *)
Definition nl : char := 10%N.

(** [\s] of a [str] pattern: the code points for which [str.isspace] holds. *)
Definition is_space (c : char) : bool :=
  ((9 <=? c) && (c <=? 13) || (28 <=? c) && (c <=? 32)
   || (c =? 133) || (c =? 160) || (c =? 5760)
   || (8192 <=? c) && (c <=? 8202)
   || (c =? 8232) || (c =? 8233) || (c =? 8239) || (c =? 8287)
   || (c =? 12288))%N.

(** [prefix_of p s]: [s] starts with [p]. *)
Fixpoint prefix_of (p s : text) : bool :=
  match p, s with
  | [], _ => true
  | _ :: _, [] => false
  | a :: p', b :: s' => (a =? b)%N && prefix_of p' s'
  end.

(** [occurs p s]: [p] occurs in [s] as a contiguous substring
    (Python's [p in s]). *)
Fixpoint occurs (p s : text) : bool :=
  prefix_of p s || match s with [] => false | _ :: s' => occurs p s' end.

(* ===================================================================== *)
(** ** The pattern language of the two scripts *)

Module Re.

(** One-character classes: [\s], [[^c]] and [[abc]]. *)
Inductive cls :=
| Space
| Except (c : char)
| OneOf (cs : text).

Definition in_cls (k : cls) (c : char) : bool :=
  match k with
  | Space => is_space c
  | Except x => negb (c =? x)%N
  | OneOf cs => existsb (N.eqb c) cs
  end.

(** A pattern is a sequence of nodes.  No group of the scripts' patterns is
    quantified, so a group is its two boundaries: [Mark (2*g-2)] opens group
    [g] and [Mark (2*g-1)] closes it.  The flags [re.MULTILINE] and
    [re.DOTALL] only change [^], [$] and [.], none of which occurs. *)
Inductive node :=
| Lit (c : char)
| Any (k : cls)
| Star (k : cls)
| Plus (k : cls)
| Mark (m : nat).

Definition pat := list node.

Definition lit (s : string) : pat := map Lit (str s).
Definition grp_open (g : nat) : node := Mark (2 * g - 2).
Definition grp_close (g : nat) : node := Mark (2 * g - 1).

(** The marks set so far, most recent first: [(m, i)] says mark [m] was
    passed at offset [i] from the start of the match. *)
Definition marks := list (nat * nat).

Record found := Found { stop : nat; caps : marks }.

(** Greedy repetition of a one-character test: take as many characters as
    possible, then give them back one at a time until the rest of the
    pattern, [k], matches. *)
Fixpoint star (p : char -> bool) (k : nat -> text -> option found)
    (i : nat) (s : text) : option found :=
  match s with
  | c :: s' =>
      if p c then
        match star p k (S i) s' with
        | Some r => Some r
        | None => k i s
        end
      else k i s
  | [] => k i s
  end.

(** [exec ns ms i s]: match [ns] against [s], a suffix of the subject that
    starts at offset [i] of the attempt; the first success in backtracking
    order is returned. *)
Fixpoint exec (ns : pat) (ms : marks) (i : nat) (s : text) : option found :=
  match ns with
  | [] => Some (Found i ms)
  | Lit c :: ns' =>
      match s with
      | x :: s' => if (x =? c)%N then exec ns' ms (S i) s' else None
      | [] => None
      end
  | Any k :: ns' =>
      match s with
      | x :: s' => if in_cls k x then exec ns' ms (S i) s' else None
      | [] => None
      end
  | Star k :: ns' => star (in_cls k) (exec ns' ms) i s
  | Plus k :: ns' =>
      match s with
      | x :: s' =>
          if in_cls k x then star (in_cls k) (exec ns' ms) (S i) s' else None
      | [] => None
      end
  | Mark m :: ns' => exec ns' ((m, i) :: ms) i s
  end.

(** [pattern.match] at the current position. *)
Definition match_here (ns : pat) (s : text) : option found := exec ns [] 0 s.

Fixpoint mark_at (m : nat) (ms : marks) : option nat :=
  match ms with
  | [] => None
  | (m', i) :: ms' => if Nat.eqb m m' then Some i else mark_at m ms'
  end.

(** [match.group(g)] for a group that took part in the match, read off the
    text [s] at which the match starts. *)
Definition group (g : nat) (r : found) (s : text) : text :=
  match mark_at (2 * g - 2) (caps r), mark_at (2 * g - 1) (caps r) with
  | Some a, Some b => firstn (b - a) (skipn a s)
  | _, _ => []
  end.

End Re.

(* ===================================================================== *)
(** ** The substitution loop *)

(** What a pass does where it stands: [rule s = Some (n, r)] says the first
    [n] characters of [s] are matched and replaced by [r]. *)
Definition rule := text -> option (nat * text).

(** The loop of [re.sub] and of [str.replace]: try the rule at each position
    from the left; a match is replaced and the scan resumes behind it,
    otherwise the character is copied.  [skip] counts the characters of the
    current match still to be passed over.  Every rule of the two scripts
    consumes at least one character (see [rules_consume]), so the treatment
    of empty matches by [re.sub] never comes into play; a rule reporting
    length [0] is read as no match. *)
Fixpoint scan_from (f : rule) (skip : nat) (s : text) : text :=
  match s with
  | [] => []
  | c :: s' =>
      match skip with
      | S k => scan_from f k s'
      | O =>
          match f s with
          | Some (S n, r) => r ++ scan_from f n s'
          | _ => c :: scan_from f 0 s'
          end
      end
  end.

Definition scan (f : rule) (s : text) : text := scan_from f 0 s.

(** [re.sub(pattern, repl, content)] with [repl] a function of the match
    (a constant function for a replacement string without escapes). *)
Definition re_rule (ns : Re.pat) (repl : Re.found -> text -> text) : rule :=
  fun s =>
    match Re.match_here ns s with
    | Some r => Some (Re.stop r, repl r s)
    | None => None
    end.

Definition re_sub (ns : Re.pat) (repl : Re.found -> text -> text)
    (content : text) : text :=
  scan (re_rule ns repl) content.

(** [content.replace(old, new)]. *)
Definition replace_rule (old new : text) : rule :=
  fun s => if prefix_of old s then Some (length old, new) else None.

Definition replace (old new content : text) : text :=
  scan (replace_rule old new) content.

(* ===================================================================== *)
(** ** [cleanup.py] *)

Module Cleanup.
Import Re.

(** [r',\s*\n\s*user1\.address\);'] and its [user2] twin; [u] is the
    identifier. *)
Definition tail_pat (u : string) : pat :=
  [Lit 44%N; Star Space; Lit nl; Star Space] ++ lit u ++ lit ".address);".

(** [r',\s*user1\.address,\s*\n\s*user1\.address\)'] and its [user2] twin. *)
Definition dup_pat (u : string) : pat :=
  [Lit 44%N; Star Space] ++ lit u ++ lit ".address,"
  ++ [Star Space; Lit nl; Star Space] ++ lit u ++ lit ".address)".

(** A replacement string without escapes. *)
Definition const_repl (t : text) : found -> text -> text := fun _ _ => t.

Definition tail_repl : text := str ");".
Definition dup_repl (u : string) : text := str ", " ++ str u ++ str ".address)".

(** Lines 7-10: the four [re.sub] calls. *)
Definition dedup (content : text) : text :=
  let content := re_sub (tail_pat "user1") (const_repl tail_repl) content in
  let content := re_sub (tail_pat "user2") (const_repl tail_repl) content in
  let content := re_sub (dup_pat "user1") (const_repl (dup_repl "user1")) content in
  let content := re_sub (dup_pat "user2") (const_repl (dup_repl "user2")) content in
  content.

(** The literals of lines 13-21. *)
Definition bad1 : text :=
  str "pool.connect(user1).addLiquidity(0, LIQUIDITY_AMOUNT, 0, 0, deadline, user1.address,"
  ++ [nl] ++ str "        user1.address)".
Definition good1 : text :=
  str "pool.connect(user1).addLiquidity(0, LIQUIDITY_AMOUNT, 0, 0, deadline, user1.address)".

Definition bad2 : text :=
  str "removeLiquidity(lpBalance, 0, 0, pastDeadline, user1.address,"
  ++ [nl] ++ str "        user1.address)".
Definition good2 : text :=
  str "removeLiquidity(lpBalance, 0, 0, pastDeadline, user1.address)".

Definition bad3 : text :=
  str "removeLiquidity(lpBalance + 1n, 0, 0, deadline, user1.address,"
  ++ [nl] ++ str "        user1.address)".
Definition good3 : text :=
  str "removeLiquidity(lpBalance + 1n, 0, 0, deadline, user1.address)".

(** Lines 13-21: the three [str.replace] calls. *)
Definition literals (content : text) : text :=
  let content := replace bad1 good1 content in
  let content := replace bad2 good2 content in
  let content := replace bad3 good3 content in
  content.

(** The text transformation of the script. *)
Definition cleanup (content : text) : text := literals (dedup content).

End Cleanup.

(* ===================================================================== *)
(** ** [fix_test.py] *)

Module FixTest.
Import Re.

(** The receiver and method name that open a match:
    [pool\.connect\((user[12])\)\.addLiquidity\(]; the identifier is
    group 2. *)
Definition head (method : string) : pat :=
  lit "pool.connect(" ++ [grp_open 2] ++ lit "user" ++ [Any (OneOf (str "12"))]
  ++ [grp_close 2] ++ lit (")." ++ method ++ "(").

(** [\s*[^,]+,] *)
Definition slot : pat := [Star Space; Plus (Except 44%N); Lit 44%N].

(** [\s*[^)]+)(\s*\))]: the last argument, the end of group 1, and group 3. *)
Definition last_slot : pat :=
  [Star Space; Plus (Except 41%N); grp_close 1;
   grp_open 3; Star Space; Lit 41%N; grp_close 3].

(** Lines 7-11. *)
Definition pattern : pat :=
  [grp_open 1] ++ head "addLiquidity"
  ++ slot ++ slot ++ slot ++ slot ++ last_slot.

(** Lines 21-25. *)
Definition pattern2 : pat :=
  [grp_open 1] ++ head "removeLiquidity"
  ++ slot ++ slot ++ slot ++ last_slot.

(** Lines 14-16. *)
Definition replace_func (r : found) (s : text) : text :=
  let user := group 2 r s in
  group 1 r s ++ str "," ++ [nl] ++ str "        " ++ user ++ str ".address"
  ++ group 3 r s.

(** The text transformation of the script. *)
Definition fix_test (content : text) : text :=
  let content := re_sub pattern replace_func content in
  let content := re_sub pattern2 replace_func content in
  content.

End FixTest.

(* ===================================================================== *)
(** ** The normalizer *)

(** The ordered sequence of the specification: duplicate removal, literal
    replacement, insertion of the missing argument. *)
Definition normalize (t : text) : text := FixTest.fix_test (Cleanup.cleanup t).

(* ===================================================================== *)
(** ** Vocabulary of the statements *)

Module Spec.
Import Re Cleanup FixTest.

(** [every_suffix P l]: [P] holds of every non-empty suffix of [l]. *)
Fixpoint every_suffix (P : text -> Prop) (l : text) : Prop :=
  match l with
  | [] => True
  | _ :: l' => P l /\ every_suffix P l'
  end.

(** A rule never reports more characters than the text has. *)
Definition bounded (f : rule) : Prop :=
  forall s n r, f s = Some (n, r) -> n <= length s.

(** A rule that fires exactly on the texts beginning with a segment of a
    given family, and replaces the segment by a fixed text. *)
Definition recognises (f : rule) (Seg : text -> Prop) (R : text) : Prop :=
  forall s n r,
    f s = Some (n, r) <->
    exists m rest, s = m ++ rest /\ Seg m /\ n = length m /\ r = R.

(** White space only. *)
Definition spaces (w : text) : Prop := forallb is_space w = true.

(** No occurrence of the character [c]. *)
Definition free_of (c : char) (w : text) : Prop :=
  forallb (fun x => negb (x =? c)%N) w = true.

(** [lang ns s n]: the first [n] characters of [s] are a word of the
    pattern [ns], whatever the order in which the matcher finds it. *)
Fixpoint lang (ns : pat) (s : text) (n : nat) : Prop :=
  match ns with
  | [] => n = 0
  | Lit c :: ns' =>
      exists s' n', s = c :: s' /\ n = S n' /\ lang ns' s' n'
  | Any k :: ns' =>
      exists x s' n',
        s = x :: s' /\ in_cls k x = true /\ n = S n' /\ lang ns' s' n'
  | Star k :: ns' =>
      exists w s' n',
        s = w ++ s' /\ forallb (in_cls k) w = true
        /\ n = length w + n' /\ lang ns' s' n'
  | Plus k :: ns' =>
      exists w s' n',
        s = w ++ s' /\ w <> [] /\ forallb (in_cls k) w = true
        /\ n = length w + n' /\ lang ns' s' n'
  | Mark _ :: ns' => lang ns' s n
  end.

(** The next character, if any, fails the test [p]. *)
Definition stops (p : char -> bool) (s : text) : Prop :=
  match s with
  | [] => True
  | c :: _ => p c = false
  end.

(** The identifiers the patterns are written for: no white space in front,
    no comma inside. *)
Definition is_ident (u : string) : bool :=
  match str u with
  | c :: _ => negb (is_space c)
  | [] => false
  end && forallb (fun x => negb (x =? 44)%N) (str u).

(** The two identifier variants. *)
Definition user (u : string) : Prop := u = "user1"%string \/ u = "user2"%string.

(** What the pattern of lines 7-8 matches: a comma, white space [w] and
    [u.address);]. *)
Definition tail_seg (u : string) (w : text) : text :=
  44%N :: w ++ str u ++ str ".address);".

(** What the pattern of lines 9-10 matches: a comma, white space [w0],
    [u.address,], white space [w] and [u.address)]. *)
Definition dup_seg (u : string) (w0 w : text) : text :=
  44%N :: w0 ++ str u ++ str ".address," ++ w ++ str u ++ str ".address)".

(** The four substitutions of lines 7-10 as rules of the loop. *)
Definition tail_rule (u : string) : rule :=
  re_rule (tail_pat u) (const_repl tail_repl).

Definition dup_rule (u : string) : rule :=
  re_rule (dup_pat u) (const_repl (dup_repl u)).

(** The segments of the two families; the white space that the patterns
    write [\s*\n\s*] holds a line break. *)
Definition is_tail (u : string) (m : text) : Prop :=
  exists w, m = tail_seg u w /\ spaces w /\ In nl w.

Definition is_dup (u : string) (m : text) : Prop :=
  exists w0 w, m = dup_seg u w0 w /\ spaces w0 /\ spaces w /\ In nl w.

(** Both patterns begin with a comma. *)
Definition comma_led (f : rule) : Prop :=
  forall c s, c <> 44%N -> f (c :: s) = None.

(** What follows a comma is not the second half of a duplicate. *)
Definition no_second (u : string) (X : text) : Prop :=
  forall w rest, spaces w -> In nl w ->
    X <> w ++ str u ++ str ".address)" ++ rest.

(** [overlaps a b]: [a] and [b] agree as far as both go, so that some text
    starts with both. *)
Definition overlaps (a b : text) : bool := prefix_of a b || prefix_of b a.

(** No occurrence of [old] that starts before the segment reaches into it. *)
Definition clear_before (old seg : text) : bool :=
  forallb (fun j => negb (overlaps (skipn j old) seg))
          (seq 1 (length old - 1)).

(** No occurrence of [old] starts inside the segment. *)
Definition clear_inside (old seg : text) : bool :=
  forallb (fun j => negb (overlaps old (skipn j seg))) (seq 0 (length seg)).

(** The text that opens a match: receiver, identifier and method name. *)
Definition receiver (u method : string) : text :=
  str "pool.connect(" ++ str u ++ str (")." ++ method ++ "(").

(** An argument slot in the sense of the matching policy: not empty, and
    neither a comma nor a closing parenthesis inside. *)
Definition is_slot (a : text) : bool :=
  match a with
  | [] => false
  | _ :: _ => forallb (fun x => negb (x =? 44)%N && negb (x =? 41)%N) a
  end.

(** Some occurrence of [h] in [pre ++ rest] begins inside [pre]. *)
Fixpoint begins_in (h pre rest : text) : bool :=
  match pre with
  | [] => false
  | _ :: pre' => prefix_of h (pre ++ rest) || begins_in h pre' rest
  end.

(** An [addLiquidity] call on the receiver [pool.connect(u)] with five
    arguments, up to and without its closing parenthesis. *)
Definition open_call (u : string) (a1 a2 a3 a4 a5 : text) : text :=
  receiver u "addLiquidity" ++ a1 ++ str "," ++ a2 ++ str "," ++ a3 ++ str ","
  ++ a4 ++ str "," ++ a5.

(** What [replace_func] puts between group 1 and group 3. *)
Definition inserted (u : string) : text :=
  str "," ++ [nl] ++ str "        " ++ str u ++ str ".address".

(** [track f skip s i]: where the character at index [i] of [s] stands in
    [scan_from f skip s]; [None] when a match covers it (or [s] has no such
    index). *)
Fixpoint track (f : rule) (skip : nat) (s : text) (i : nat) : option nat :=
  match s with
  | [] => None
  | _ :: s' =>
      match skip with
      | S k => match i with O => None | S i' => track f k s' i' end
      | O =>
          match f s with
          | Some (S n, r) =>
              match i with
              | O => None
              | S i' => Nat.add (length r) <$> track f n s' i'
              end
          | _ =>
              match i with
              | O => Some 0
              | S i' => S <$> track f 0 s' i'
              end
          end
      end
  end.

(** The passes of the normalizer, in order. *)
Definition passes : list rule :=
  [ tail_rule "user1"; tail_rule "user2";
    dup_rule "user1"; dup_rule "user2";
    replace_rule bad1 good1;
    replace_rule bad2 good2;
    replace_rule bad3 good3;
    re_rule pattern replace_func;
    re_rule pattern2 replace_func ].

(** Passes applied one after the other, each to the output of the one
    before. *)
Definition run_passes (fs : list rule) (t : text) : text :=
  fold_left (fun t f => scan f t) fs t.

(** Where the character at index [i] of the input stands after all the
    passes, when no match of any pass covers it. *)
Fixpoint survive (fs : list rule) (t : text) (i : nat) : option nat :=
  match fs with
  | [] => if decide (i < length t) then Some i else None
  | f :: fs' =>
      match track f 0 t i with
      | Some j => survive fs' (scan f t) j
      | None => None
      end
  end.

(** [g] never lengthens a text, and keeps its length only by keeping the
    text. *)
Definition shrinking (g : text -> text) : Prop :=
  forall t, length (g t) <= length t /\ (length (g t) = length t -> g t = t).

(** [mlang ns ms i s ms' j]: some way through the pattern [ns] takes the
    text [s], entered at offset [i] with the marks [ms], to offset [j] with
    the marks [ms']. *)
Fixpoint mlang (ns : pat) (ms : marks) (i : nat) (s : text)
    (ms' : marks) (j : nat) : Prop :=
  match ns with
  | [] => ms' = ms /\ j = i
  | Lit c :: ns' => exists s', s = c :: s' /\ mlang ns' ms (S i) s' ms' j
  | Any k :: ns' =>
      exists x s', s = x :: s' /\ in_cls k x = true
                   /\ mlang ns' ms (S i) s' ms' j
  | Star k :: ns' =>
      exists w s', s = w ++ s' /\ forallb (in_cls k) w = true
                   /\ mlang ns' ms (i + length w) s' ms' j
  | Plus k :: ns' =>
      exists w s', s = w ++ s' /\ w <> [] /\ forallb (in_cls k) w = true
                   /\ mlang ns' ms (i + length w) s' ms' j
  | Mark m :: ns' => mlang ns' ((m, i) :: ms) i s ms' j
  end.

(** No group boundary among the nodes. *)
Definition markless (ns : pat) : bool :=
  forallb (fun nd => match nd with Mark _ => false | _ => true end) ns.

(** The end of a segment of lines 7-10: a closing parenthesis and, for
    lines 7-8, a semicolon. *)
Definition closing (semi : bool) : text :=
  41%N :: (if semi then [59%N] else []).

End Spec.
Import Spec.

(* ===================================================================== *)
(** ** Reasoning about the substitution loop *)

Lemma every_suffix_impl (P Q : text -> Prop) l :
  (forall s, P s -> Q s) -> every_suffix P l -> every_suffix Q l.
Proof.
  intros HPQ; induction l as [|c l IH]; simpl; [tauto|].
  intros [H1 H2]; split; auto.
Qed.

Lemma every_suffix_app (P : text -> Prop) l1 l2 :
  every_suffix (fun s => P (s ++ l2)) l1 -> every_suffix P l2 ->
  every_suffix P (l1 ++ l2).
Proof.
  induction l1 as [|c l1 IH]; simpl; [tauto|].
  intros [H1 H2] H3; split; auto.
Qed.

Lemma prefix_of_spec p s :
  prefix_of p s = true <-> exists r, s = p ++ r.
Proof.
  revert s; induction p as [|a p IH]; intros s; simpl.
  - split; [eexists; reflexivity | reflexivity].
  - destruct s as [|b s].
    + split; [discriminate | intros [r Hr]; discriminate].
    + rewrite andb_true_iff, N.eqb_eq, IH. split.
      * intros [-> [r ->]]. eexists; reflexivity.
      * intros [r Hr]. injection Hr as -> ->. split; [reflexivity | eexists; reflexivity].
Qed.

Lemma prefix_of_app p r : prefix_of p (p ++ r) = true.
Proof. apply prefix_of_spec. eexists; reflexivity. Qed.

Lemma prefix_of_length p s : prefix_of p s = true -> length p <= length s.
Proof.
  intros [r ->]%prefix_of_spec. rewrite length_app. lia.
Qed.

Section ScanFacts.
Variable f : rule.

Lemma scan_from_drop k s : scan_from f k s = scan f (skipn k s).
Proof.
  revert k; induction s as [|c s IH]; intros [|k]; simpl; try reflexivity.
  apply IH.
Qed.

Lemma scan_miss c s : f (c :: s) = None -> scan f (c :: s) = c :: scan f s.
Proof. unfold scan; simpl. intros ->. reflexivity. Qed.

Lemma scan_hit s n r :
  f s = Some (n, r) -> 0 < n -> s <> [] ->
  scan f s = r ++ scan f (skipn n s).
Proof.
  destruct s as [|c s]; [congruence|]. destruct n as [|n]; [lia|].
  intros Hf _ _. unfold scan at 1; simpl. rewrite Hf.
  rewrite scan_from_drop. reflexivity.
Qed.

(** A text on which the rule fires nowhere is returned as it is. *)
Lemma scan_id s : every_suffix (fun t => f t = None) s -> scan f s = s.
Proof.
  induction s as [|c s IH]; simpl; [reflexivity|].
  intros [H1 H2]. rewrite scan_miss, IH; auto.
Qed.

(** The loop splits at a point no match reaches across. *)
Lemma scan_from_app k pre rest :
  bounded f -> k <= length pre ->
  every_suffix (fun p => f (p ++ rest) = f p) pre ->
  scan_from f k (pre ++ rest) = scan_from f k pre ++ scan f rest.
Proof.
  intros Hb. revert k; induction pre as [|c pre IH]; intros k Hk Hs.
  - simpl in Hk. assert (k = 0) as -> by lia. reflexivity.
  - simpl in Hs. destruct Hs as [Hc Hs]. simpl in Hk.
    destruct k as [|k]; simpl.
    + rewrite Hc.
      destruct (f (c :: pre)) as [[[|n] r]|] eqn:E.
      * rewrite IH; auto with lia.
      * apply Hb in E. simpl in E. rewrite IH; auto with lia.
        rewrite app_assoc. reflexivity.
      * rewrite IH; auto with lia.
    + apply IH; auto with lia.
Qed.

Lemma scan_app pre rest :
  bounded f ->
  every_suffix (fun p => f (p ++ rest) = f p) pre ->
  scan f (pre ++ rest) = scan f pre ++ scan f rest.
Proof. intros; apply scan_from_app; auto with lia. Qed.

(** A segment no match touches is copied. *)
Lemma scan_inert pre seg rest :
  bounded f ->
  every_suffix (fun p => f (p ++ seg ++ rest) = f p) pre ->
  every_suffix (fun p => f (p ++ rest) = None) seg ->
  scan f (pre ++ seg ++ rest) = scan f pre ++ seg ++ scan f rest.
Proof.
  intros Hb Hp Hs. rewrite scan_app; auto. f_equal.
  clear Hp. induction seg as [|c seg IH]; simpl; [reflexivity|].
  simpl in Hs. destruct Hs as [H1 H2].
  rewrite scan_miss by exact H1. f_equal. auto.
Qed.

(** A segment that is exactly one match is replaced. *)
Lemma scan_fire pre seg r rest :
  bounded f -> seg <> [] ->
  every_suffix (fun p => f (p ++ seg ++ rest) = f p) pre ->
  f (seg ++ rest) = Some (length seg, r) ->
  scan f (pre ++ seg ++ rest) = scan f pre ++ r ++ scan f rest.
Proof.
  intros Hb Hne Hp Hs. rewrite scan_app; auto. f_equal.
  rewrite (scan_hit _ _ _ Hs).
  - rewrite drop_app_length. reflexivity.
  - destruct seg; [congruence | simpl; lia].
  - destruct seg; [congruence | discriminate].
Qed.
End ScanFacts.

(* ===================================================================== *)
(** ** Reasoning about the matcher *)

Module ReFacts.
Import Re.

Section Star.
Variable p : char -> bool.
Variable k : nat -> text -> option found.

Lemma star_sound s : forall i r,
  star p k i s = Some r ->
  exists w s', s = w ++ s' /\ forallb p w = true
               /\ k (i + length w) s' = Some r.
Proof.
  induction s as [|c s IH]; intros i r H; simpl in H.
  - exists [], []. simpl. rewrite Nat.add_0_r. auto.
  - destruct (p c) eqn:Hc.
    + destruct (star p k (S i) s) as [r'|] eqn:E.
      * injection H as ->. destruct (IH _ _ E) as (w & s' & -> & Hw & Hk).
        exists (c :: w), s'. simpl. rewrite Hc, Hw.
        replace (i + S (length w)) with (S i + length w) by lia. auto.
      * exists [], (c :: s). simpl. rewrite Nat.add_0_r. auto.
    + exists [], (c :: s). simpl. rewrite Nat.add_0_r. auto.
Qed.

Lemma star_keeps i s : is_Some (k i s) -> is_Some (star p k i s).
Proof.
  destruct s as [|c s]; simpl; [auto|].
  destruct (p c); [|auto]. destruct (star p k (S i) s); eauto.
Qed.

Lemma star_complete w : forall i s',
  forallb p w = true -> is_Some (k (i + length w) s') ->
  is_Some (star p k i (w ++ s')).
Proof.
  induction w as [|c w IH]; intros i s' Hw Hk; simpl in *.
  - rewrite Nat.add_0_r in Hk. apply star_keeps, Hk.
  - apply andb_true_iff in Hw as [Hc Hw]. rewrite Hc.
    destruct (IH (S i) s' Hw) as [r Hr].
    + replace (S i + length w) with (i + S (length w)) by lia. exact Hk.
    + rewrite Hr. eauto.
Qed.

(** When the longest run is followed by a success of the rest of the
    pattern, that success is the result. *)
Lemma star_greedy w : forall i s' r,
  forallb p w = true -> stops p s' -> k (i + length w) s' = Some r ->
  star p k i (w ++ s') = Some r.
Proof.
  induction w as [|c w IH]; intros i s' r Hw Hs Hk; simpl in *.
  - rewrite Nat.add_0_r in Hk. destruct s' as [|c s']; simpl; [exact Hk|].
    simpl in Hs. rewrite Hs. exact Hk.
  - apply andb_true_iff in Hw as [Hc Hw]. rewrite Hc.
    rewrite (IH (S i) s' r); auto.
    replace (S i + length w) with (i + S (length w)) by lia. exact Hk.
Qed.
End Star.

Lemma exec_sound ns : forall ms i s r,
  exec ns ms i s = Some r -> exists n, stop r = i + n /\ lang ns s n.
Proof.
  induction ns as [|nd ns IH]; intros ms i s r H; simpl in H.
  - injection H as <-. exists 0. simpl. split; [lia | reflexivity].
  - destruct nd as [c|k|k|k|m]; simpl.
    + destruct s as [|x s]; [discriminate|].
      destruct (N.eqb_spec x c) as [->|]; [|discriminate].
      destruct (IH _ _ _ _ H) as (n & Hn & Hl).
      exists (S n). split; [lia|]. exists s, n. auto.
    + destruct s as [|x s]; [discriminate|].
      destruct (in_cls k x) eqn:Hx; [|discriminate].
      destruct (IH _ _ _ _ H) as (n & Hn & Hl).
      exists (S n). split; [lia|]. exists x, s, n. auto.
    + apply star_sound in H as (w & s' & -> & Hw & Hk).
      destruct (IH _ _ _ _ Hk) as (n & Hn & Hl).
      exists (length w + n). split; [lia|]. exists w, s', n. auto.
    + destruct s as [|x s]; [discriminate|].
      destruct (in_cls k x) eqn:Hx; [|discriminate].
      apply star_sound in H as (w & s' & -> & Hw & Hk).
      destruct (IH _ _ _ _ Hk) as (n & Hn & Hl).
      exists (S (length w) + n). split; [lia|].
      exists (x :: w), s', n. simpl. rewrite Hx, Hw. auto.
    + apply IH in H as (n & Hn & Hl). exists n. auto.
Qed.

Lemma exec_complete ns : forall s n ms i,
  lang ns s n -> is_Some (exec ns ms i s).
Proof.
  induction ns as [|nd ns IH]; intros s n ms i H; simpl in *.
  - eauto.
  - destruct nd as [c|k|k|k|m].
    + destruct H as (s' & n' & -> & -> & H). rewrite N.eqb_refl. eauto.
    + destruct H as (x & s' & n' & -> & Hx & -> & H). rewrite Hx. eauto.
    + destruct H as (w & s' & n' & -> & Hw & -> & H).
      apply star_complete; eauto.
    + destruct H as (w & s' & n' & -> & Hne & Hw & -> & H).
      destruct w as [|x w]; [congruence|]. simpl in *.
      apply andb_true_iff in Hw as [Hx Hw]. rewrite Hx.
      apply star_complete; eauto.
    + eauto.
Qed.

Lemma lang_bound ns : forall s n, lang ns s n -> n <= length s.
Proof.
  induction ns as [|nd ns IH]; intros s n H; simpl in H.
  - lia.
  - destruct nd as [c|k|k|k|m].
    + destruct H as (s' & n' & -> & -> & H%IH). simpl. lia.
    + destruct H as (x & s' & n' & -> & _ & -> & H%IH). simpl. lia.
    + destruct H as (w & s' & n' & -> & _ & -> & H%IH).
      rewrite length_app. lia.
    + destruct H as (w & s' & n' & -> & _ & _ & -> & H%IH).
      rewrite length_app. lia.
    + eauto.
Qed.

(** A run of literal characters in a pattern. *)
Lemma lang_lits t ns s n :
  lang (map Lit t ++ ns) s n <->
  exists s' n', s = t ++ s' /\ n = length t + n' /\ lang ns s' n'.
Proof.
  revert s n; induction t as [|c t IH]; intros s n; simpl.
  - split; [eauto | intros (s' & n' & -> & -> & H); exact H].
  - split.
    + intros (s' & n' & -> & -> & (s2 & n2 & -> & -> & H)%IH).
      exists s2, n2. auto.
    + intros (s' & n' & -> & -> & H). exists (t ++ s'), (length t + n').
      split; [reflexivity|]. split; [reflexivity|]. apply IH. eauto.
Qed.

(** The matcher on a run of literal characters. *)
Lemma exec_lits t ns ms i s :
  exec (map Lit t ++ ns) ms i (t ++ s) = exec ns ms (i + length t) s.
Proof.
  revert i; induction t as [|c t IH]; intros i; simpl.
  - rewrite Nat.add_0_r. reflexivity.
  - rewrite N.eqb_refl, IH. f_equal. lia.
Qed.

(** What a match of a pattern without marks reports is where it stops. *)
Lemma match_stop ns s n :
  lang ns s n -> (forall m, lang ns s m -> m = n) ->
  exists r, match_here ns s = Some r /\ stop r = n.
Proof.
  intros Hl Hu. destruct (exec_complete ns s n [] 0 Hl) as [r Hr].
  exists r. split; [exact Hr|].
  apply exec_sound in Hr as (m & Hm & Hlm). apply Hu in Hlm. lia.
Qed.

Lemma match_none ns s :
  (forall n, ~ lang ns s n) -> match_here ns s = None.
Proof.
  intros H. destruct (match_here ns s) as [r|] eqn:E; [|reflexivity].
  apply exec_sound in E as (n & _ & Hl). destruct (H _ Hl).
Qed.

Lemma re_rule_bounded ns repl : bounded (re_rule ns repl).
Proof.
  intros s n r. unfold re_rule.
  destruct (match_here ns s) as [m|] eqn:E; [|discriminate].
  intros [= <- _]. apply exec_sound in E as (k & -> & Hl%lang_bound). lia.
Qed.

End ReFacts.

Lemma replace_rule_bounded old new : bounded (replace_rule old new).
Proof.
  intros s n r. unfold replace_rule.
  destruct (prefix_of old s) eqn:E; [|discriminate].
  intros [= <- _]. apply prefix_of_length, E.
Qed.

(* ===================================================================== *)
(** ** Runs of characters *)

(** A maximal run is determined by the text. *)
Lemma run_unique (p : char -> bool) w : forall w' t t',
  forallb p w = true -> forallb p w' = true ->
  stops p t -> stops p t' ->
  w ++ t = w' ++ t' -> w = w' /\ t = t'.
Proof.
  induction w as [|c w IH]; intros [|c' w'] t t' Hw Hw' Ht Ht' E; simpl in *.
  - auto.
  - subst t. simpl in Ht. apply andb_true_iff in Hw' as [Hc _]. congruence.
  - subst t'. simpl in Ht'. apply andb_true_iff in Hw as [Hc _]. congruence.
  - injection E as -> E. apply andb_true_iff in Hw as [_ Hw].
    apply andb_true_iff in Hw' as [_ Hw'].
    destruct (IH _ _ _ Hw Hw' Ht Ht' E) as [-> ->]. auto.
Qed.

(** A text free of [c] that is cut by an occurrence of [c] lies before it. *)
Lemma free_prefix c m : forall p X rest,
  free_of c m -> p ++ c :: X = m ++ rest -> exists q, p = m ++ q.
Proof.
  induction m as [|a m IH]; intros p X rest Hm E; simpl in *.
  - eauto.
  - apply andb_true_iff in Hm as [Ha Hm]. destruct p as [|b p]; simpl in E.
    + injection E as -> _. rewrite N.eqb_refl in Ha. discriminate.
    + injection E as -> E. destruct (IH _ _ _ Hm E) as [q ->]. eauto.
Qed.

(** Where the first [c] of a text is. *)
Lemma first_cut c a : forall p X Y,
  free_of c a -> p ++ c :: X = a ++ c :: Y ->
  (p = a /\ X = Y) \/ (exists q, p = a ++ c :: q /\ Y = q ++ c :: X).
Proof.
  induction a as [|x a IH]; intros p X Y Ha E; simpl in *.
  - destruct p as [|b p]; simpl in E.
    + injection E as ->. auto.
    + injection E as -> <-. right. eauto.
  - apply andb_true_iff in Ha as [Hx Ha]. destruct p as [|b p]; simpl in E.
    + injection E as -> _. rewrite N.eqb_refl in Hx. discriminate.
    + injection E as -> E. destruct (IH _ _ _ Ha E) as [[-> ->]|(q & -> & ->)].
      * auto.
      * right. eauto.
Qed.

Lemma spaces_app a b : spaces (a ++ b) <-> spaces a /\ spaces b.
Proof. unfold spaces. rewrite forallb_app, andb_true_iff. tauto. Qed.

Lemma free_of_app c a b : free_of c (a ++ b) <-> free_of c a /\ free_of c b.
Proof. unfold free_of. rewrite forallb_app, andb_true_iff. tauto. Qed.

Lemma spaces_free c w : is_space c = false -> spaces w -> free_of c w.
Proof.
  intros Hc. unfold spaces, free_of. induction w as [|x w IH]; simpl; [auto|].
  rewrite !andb_true_iff. intros [Hx Hw]. split; [|auto].
  destruct (N.eqb_spec x c) as [->|]; [congruence | reflexivity].
Qed.

(* ===================================================================== *)
(** ** Rules that recognise a family of segments *)

Section Recognises.
Variables (f : rule) (Seg : text -> Prop) (R : text).
Hypothesis Hf : recognises f Seg R.

Lemma recognises_bounded : bounded f.
Proof.
  intros s n r (m & rest & -> & _ & -> & _)%Hf. rewrite length_app. lia.
Qed.

Lemma recognises_some m rest : Seg m -> f (m ++ rest) = Some (length m, R).
Proof. intros Hm. apply Hf. eauto 6. Qed.

Lemma recognises_none s :
  (forall m rest, Seg m -> s <> m ++ rest) -> f s = None.
Proof.
  intros H. destruct (f s) as [[n r]|] eqn:E; [|reflexivity].
  apply Hf in E as (m & rest & -> & Hm & _). destruct (H _ _ Hm eq_refl).
Qed.

(** The rule does not look past a point no segment reaches across. *)
Lemma recognises_local p X :
  (forall m rest, Seg m -> p ++ X = m ++ rest -> exists q, p = m ++ q) ->
  f (p ++ X) = f p.
Proof.
  intros H. destruct (f (p ++ X)) as [[n r]|] eqn:E.
  - apply Hf in E as (m & rest & E & Hm & -> & ->).
    destruct (H _ _ Hm E) as [q ->]. symmetry. apply recognises_some, Hm.
  - destruct (f p) as [[n r]|] eqn:E'; [|reflexivity].
    apply Hf in E' as (m & rest & -> & Hm & -> & ->).
    rewrite <- app_assoc, (recognises_some _ _ Hm) in E. discriminate.
Qed.
End Recognises.

Lemma replace_recognises old new :
  recognises (replace_rule old new) (fun m => m = old) new.
Proof.
  intros s n r. unfold replace_rule. destruct (prefix_of old s) eqn:E.
  - apply prefix_of_spec in E as [rest ->]. split.
    + intros [= <- <-]. eauto 6.
    + intros (m & rest' & _ & -> & -> & ->). reflexivity.
  - split; [discriminate|]. intros (m & rest & -> & -> & _).
    rewrite prefix_of_app in E. discriminate.
Qed.

(* ===================================================================== *)
(** ** [cleanup.py]: the patterns of lines 7-10 *)

Module CleanupFacts.
Import Re ReFacts Cleanup.

(** The words of the two patterns are the segments [tail_seg] and
    [dup_seg]. *)

Lemma lang_lits_end t s n :
  lang (map Lit t) s n <-> exists rest, s = t ++ rest /\ n = length t.
Proof.
  rewrite <- (app_nil_r (map Lit t)), lang_lits. simpl. split.
  - intros (s' & n' & -> & -> & ->). exists s'. split; [reflexivity | lia].
  - intros (rest & -> & ->). exists rest, 0. split; [reflexivity|]. split; [lia | reflexivity].
Qed.

Lemma spaces_nl_split w :
  spaces w -> In nl w ->
  exists w1 w2, w = w1 ++ nl :: w2 /\ spaces w1 /\ spaces w2.
Proof.
  intros Hw Hin. apply in_split in Hin as (w1 & w2 & ->).
  apply spaces_app in Hw as [H1 H2]. exists w1, w2. split; [reflexivity|].
  split; [exact H1|]. unfold spaces in *. simpl in H2. exact H2.
Qed.

Lemma tail_lang u s n :
  lang (tail_pat u) s n <->
  exists w rest, s = tail_seg u w ++ rest /\ spaces w /\ In nl w
                 /\ n = length (tail_seg u w).
Proof.
  unfold tail_pat, tail_seg, lit. cbn [app lang in_cls]. split.
  - intros (s1 & n1 & -> & -> & w1 & s2 & n2 & -> & Hw1 & -> &
            s3 & n3 & -> & -> & w2 & s4 & n4 & -> & Hw2 & -> & H).
    apply lang_lits in H as (s5 & n5 & -> & -> & (rest & -> & ->)%lang_lits_end).
    exists (w1 ++ nl :: w2), rest. repeat split.
    + cbn [app]. rewrite <- !app_assoc. reflexivity.
    + apply spaces_app. split; [exact Hw1|]. unfold spaces. simpl. exact Hw2.
    + apply in_or_app. right. left. reflexivity.
    + simpl. rewrite !length_app. simpl. lia.
  - intros (w & rest & -> & Hw & Hin & Hn).
    destruct (spaces_nl_split w Hw Hin) as (w1 & w2 & -> & H1 & H2).
    assert (n = S (length w1 + S (length w2
                 + (length (str u) + length (str ".address);"))))) as ->
      by (rewrite Hn; simpl; rewrite !length_app; simpl; lia).
    clear Hn. cbn [app]. rewrite <- !app_assoc. cbn [app].
    eexists _, _. split; [reflexivity|]. split; [reflexivity|].
    exists w1. eexists _, _. split; [reflexivity|].
    split; [exact H1|]. split; [reflexivity|].
    eexists _, _. split; [reflexivity|]. split; [reflexivity|].
    exists w2. eexists _, _. split; [reflexivity|]. split; [exact H2|].
    split; [reflexivity|]. apply lang_lits. eexists _, _.
    split; [reflexivity|]. split; [reflexivity|].
    apply lang_lits_end. eexists. split; reflexivity.
Qed.

Lemma dup_lang u s n :
  lang (dup_pat u) s n <->
  exists w0 w rest, s = dup_seg u w0 w ++ rest /\ spaces w0 /\ spaces w
                    /\ In nl w /\ n = length (dup_seg u w0 w).
Proof.
  unfold dup_pat, dup_seg, lit. cbn [app lang in_cls]. split.
  - intros (s1 & n1 & -> & -> & w0 & s2 & n2 & -> & Hw0 & -> & H).
    apply lang_lits in H as (s3 & n3 & -> & -> & H).
    apply lang_lits in H as (s4 & n4 & -> & -> & H). cbn [app lang in_cls] in H.
    destruct H as (w1 & s5 & n5 & -> & Hw1 & -> & s6 & n6 & -> & -> &
                   w2 & s7 & n7 & -> & Hw2 & -> & H).
    apply lang_lits in H as (s8 & n8 & -> & -> & (rest & -> & ->)%lang_lits_end).
    exists w0, (w1 ++ nl :: w2), rest. repeat split.
    + cbn [app]. rewrite <- !app_assoc. reflexivity.
    + exact Hw0.
    + apply spaces_app. split; [exact Hw1|]. unfold spaces. simpl. exact Hw2.
    + apply in_or_app. right. left. reflexivity.
    + simpl. rewrite !length_app. simpl. rewrite !length_app. simpl. lia.
  - intros (w0 & w & rest & -> & Hw0 & Hw & Hin & Hn).
    destruct (spaces_nl_split w Hw Hin) as (w1 & w2 & -> & H1 & H2).
    assert (n = S (length w0 + (length (str u) + (length (str ".address,")
                 + (length w1 + S (length w2
                 + (length (str u) + length (str ".address)")))))))) as ->
      by (rewrite Hn; simpl; rewrite !length_app; simpl;
          rewrite !length_app; simpl; lia).
    clear Hn. cbn [app]. rewrite <- !app_assoc. cbn [app].
    eexists _, _. split; [reflexivity|]. split; [reflexivity|].
    exists w0. eexists _, _. split; [reflexivity|].
    split; [exact Hw0|]. split; [reflexivity|].
    apply lang_lits. eexists _, _. split; [reflexivity|]. split; [reflexivity|].
    apply lang_lits. eexists _, _. split; [reflexivity|]. split; [reflexivity|].
    cbn [app lang in_cls].
    exists w1. eexists _, _. split; [reflexivity|].
    split; [exact H1|]. split; [reflexivity|].
    eexists _, _. split; [reflexivity|]. split; [reflexivity|].
    exists w2. eexists _, _. split; [reflexivity|]. split; [exact H2|].
    split; [reflexivity|]. apply lang_lits. eexists _, _.
    split; [reflexivity|]. split; [reflexivity|].
    apply lang_lits_end. eexists. split; reflexivity.
Qed.

Lemma ident_stops u t : is_ident u = true -> stops is_space (str u ++ t).
Proof.
  unfold is_ident. intros [H _]%andb_true_iff.
  destruct (str u) as [|c l]; [discriminate|]. simpl.
  apply negb_true_iff, H.
Qed.

Lemma ident_free u : is_ident u = true -> free_of 44%N (str u).
Proof. unfold is_ident. intros [_ H]%andb_true_iff. exact H. Qed.

Lemma tl_eq (c : char) (a b : text) : c :: a = c :: b -> a = b.
Proof. congruence. Qed.

Lemma tail_seg_app u w rest :
  tail_seg u w ++ rest = 44%N :: w ++ str u ++ str ".address);" ++ rest.
Proof.
  unfold tail_seg. rewrite <- app_comm_cons, <- !app_assoc. reflexivity.
Qed.

Lemma dup_seg_app u w0 w rest :
  dup_seg u w0 w ++ rest =
  44%N :: w0 ++ str u ++ str ".address," ++ w ++ str u ++ str ".address)" ++ rest.
Proof.
  unfold dup_seg. rewrite <- app_comm_cons, <- !app_assoc. reflexivity.
Qed.

Lemma tail_recognises u :
  is_ident u = true -> recognises (tail_rule u) (is_tail u) tail_repl.
Proof.
  intros Hu s n r. unfold tail_rule, re_rule, const_repl. split.
  - destruct (match_here (tail_pat u) s) as [m|] eqn:E; [|discriminate].
    intros [= <- <-]. apply exec_sound in E as (k & -> & Hl).
    apply tail_lang in Hl as (w & rest & -> & Hw & Hin & ->).
    exists (tail_seg u w), rest. unfold is_tail. eauto 8.
  - intros (m & rest & -> & (w & -> & Hw & Hin) & -> & ->).
    destruct (match_stop (tail_pat u) (tail_seg u w ++ rest)
                (length (tail_seg u w))) as (r & -> & ->); [| |reflexivity].
    + apply tail_lang. eauto 8.
    + intros k (w' & rest' & E & Hw' & _ & ->)%tail_lang.
      rewrite !tail_seg_app in E. apply tl_eq in E.
      apply (run_unique is_space) in E as [-> _]; auto using ident_stops.
Qed.

Lemma dup_recognises u :
  is_ident u = true -> recognises (dup_rule u) (is_dup u) (dup_repl u).
Proof.
  intros Hu s n r. unfold dup_rule, re_rule, const_repl. split.
  - destruct (match_here (dup_pat u) s) as [m|] eqn:E; [|discriminate].
    intros [= <- <-]. apply exec_sound in E as (k & -> & Hl).
    apply dup_lang in Hl as (w0 & w & rest & -> & Hw0 & Hw & Hin & ->).
    exists (dup_seg u w0 w), rest. unfold is_dup. eauto 10.
  - intros (m & rest & -> & (w0 & w & -> & Hw0 & Hw & Hin) & -> & ->).
    destruct (match_stop (dup_pat u) (dup_seg u w0 w ++ rest)
                (length (dup_seg u w0 w))) as (r & -> & ->); [| |reflexivity].
    + apply dup_lang. eauto 10.
    + intros k (w0' & w' & rest' & E & Hw0' & Hw' & _ & ->)%dup_lang.
      rewrite !dup_seg_app in E. apply tl_eq in E.
      apply (run_unique is_space) in E as [-> E]; auto using ident_stops.
      apply app_inv_head in E. apply app_inv_head in E.
      apply (run_unique is_space) in E as [-> _]; auto using ident_stops.
Qed.

Lemma cons_eq (c d : char) (a b : text) : c :: a = d :: b -> c = d /\ a = b.
Proof. split; congruence. Qed.

Lemma prefix_of_cancel a b c : prefix_of (a ++ b) (a ++ c) = prefix_of b c.
Proof.
  induction a as [|x a IH]; [reflexivity|].
  cbn [app prefix_of]. rewrite N.eqb_refl. exact IH.
Qed.

Lemma tail_comma_led u : comma_led (tail_rule u).
Proof.
  intros c s Hc. unfold tail_rule, re_rule, match_here, tail_pat.
  cbn [app exec]. destruct (N.eqb_spec c 44); [contradiction | reflexivity].
Qed.

Lemma dup_comma_led u : comma_led (dup_rule u).
Proof.
  intros c s Hc. unfold dup_rule, re_rule, match_here, dup_pat.
  cbn [app exec]. destruct (N.eqb_spec c 44); [contradiction | reflexivity].
Qed.

Lemma free_inert f a rest :
  comma_led f -> free_of 44%N a ->
  every_suffix (fun p => f (p ++ rest) = None) a.
Proof.
  intros Hf. induction a as [|c a IH]; [exact (fun _ => I)|].
  intros [Hc Ha]%andb_true_iff. split; [|auto].
  apply Hf. intros ->. discriminate.
Qed.

(** A segment with one comma, in front. *)
Lemma inert1 f a rest :
  comma_led f -> free_of 44%N a -> f (44%N :: a ++ rest) = None ->
  every_suffix (fun p => f (p ++ rest) = None) (44%N :: a).
Proof.
  intros Hf Ha H. split; [exact H|]. apply free_inert; assumption.
Qed.

(** A segment with two commas. *)
Lemma inert2 f a b rest :
  comma_led f -> free_of 44%N a -> free_of 44%N b ->
  f (44%N :: a ++ 44%N :: b ++ rest) = None ->
  f (44%N :: b ++ rest) = None ->
  every_suffix (fun p => f (p ++ rest) = None) (44%N :: a ++ 44%N :: b).
Proof.
  intros Hf Ha Hb H1 H2.
  change (44%N :: a ++ 44%N :: b) with ((44%N :: a) ++ (44%N :: b)).
  apply every_suffix_app.
  - split.
    + cbn [app]. rewrite <- app_assoc. exact H1.
    + apply (every_suffix_impl (fun p => f (p ++ (44%N :: b) ++ rest) = None)).
      * intros p Hp. rewrite <- app_assoc. exact Hp.
      * apply free_inert; assumption.
  - apply inert1; assumption.
Qed.

Lemma addr_free u close :
  is_ident u = true -> free_of 44%N (str close) ->
  free_of 44%N (str u ++ str close).
Proof. intros Hu Hc. apply free_of_app. auto using ident_free. Qed.

Lemma is_space_comma : is_space 44%N = false.
Proof. reflexivity. Qed.

(** *** The pattern of lines 7-8 *)

Lemma tail_local u p X :
  is_ident u = true -> p <> [] ->
  tail_rule u (p ++ 44%N :: X) = tail_rule u p.
Proof.
  intros Hu Hp. apply (recognises_local _ _ _ (tail_recognises u Hu)).
  intros m rest (w & -> & Hw & _) E. destruct p as [|c p]; [congruence|].
  rewrite tail_seg_app in E. cbn [app] in E.
  apply cons_eq in E as [-> E].
  rewrite (app_assoc w), (app_assoc (w ++ _)) in E.
  apply free_prefix in E as [q ->].
  - exists q. unfold tail_seg. cbn [app]. rewrite <- !app_assoc. reflexivity.
  - rewrite <- app_assoc. apply free_of_app. split.
    + apply spaces_free; [reflexivity | exact Hw].
    + apply addr_free; [exact Hu | reflexivity].
Qed.

Lemma tail_barrier u pre X :
  is_ident u = true ->
  every_suffix (fun p => tail_rule u (p ++ 44%N :: X) = tail_rule u p) pre.
Proof.
  intros Hu. induction pre as [|c pre IH]; [exact I|].
  split; [apply tail_local; [exact Hu | discriminate] | exact IH].
Qed.

Lemma tail_at_none u w t :
  is_ident u = true -> spaces w -> stops is_space t ->
  (In nl w -> prefix_of (str u ++ str ".address);") t = false) ->
  tail_rule u (44%N :: w ++ t) = None.
Proof.
  intros Hu Hw Ht H. apply (recognises_none _ _ _ (tail_recognises u Hu)).
  intros m rest (w' & -> & Hw' & Hin) E. rewrite tail_seg_app in E.
  apply tl_eq in E.
  apply (run_unique is_space) in E as [-> ->]; auto using ident_stops.
  rewrite app_assoc, prefix_of_app in H. discriminate (H Hin).
Qed.

Lemma tail_at_some u w rest :
  is_ident u = true -> spaces w -> In nl w ->
  tail_rule u (tail_seg u w ++ rest) = Some (length (tail_seg u w), tail_repl).
Proof.
  intros Hu Hw Hin. apply (recognises_some _ _ _ (tail_recognises u Hu)).
  exists w. auto.
Qed.

(** *** The pattern of lines 9-10 *)

Lemma dup_seg_cut u w0 w rest :
  dup_seg u w0 w ++ rest =
  44%N :: (w0 ++ str u ++ str ".address")
       ++ 44%N :: (w ++ str u ++ str ".address)") ++ rest.
Proof.
  rewrite dup_seg_app. rewrite <- !app_assoc. reflexivity.
Qed.

Lemma dup_local u p X :
  is_ident u = true -> no_second u X -> p <> [] ->
  dup_rule u (p ++ 44%N :: X) = dup_rule u p.
Proof.
  intros Hu HX Hp. apply (recognises_local _ _ _ (dup_recognises u Hu)).
  intros m rest (w0 & w & -> & Hw0 & Hw & Hin) E.
  destruct p as [|c p]; [congruence|].
  rewrite dup_seg_cut in E. cbn [app] in E. apply cons_eq in E as [-> E].
  assert (Ha : free_of 44%N (w0 ++ str u ++ str ".address")).
  { apply free_of_app. split; [apply spaces_free; auto|].
    apply addr_free; [exact Hu | reflexivity]. }
  assert (Hb : free_of 44%N (w ++ str u ++ str ".address)")).
  { apply free_of_app. split; [apply spaces_free; auto|].
    apply addr_free; [exact Hu | reflexivity]. }
  apply first_cut in E as [[-> ->]|(q & -> & E)]; [| |exact Ha].
  - destruct (HX w rest Hw Hin). rewrite <- !app_assoc. reflexivity.
  - symmetry in E. apply free_prefix in E as [q' ->]; [|exact Hb].
    exists q'. rewrite dup_seg_cut. cbn [app]. rewrite <- !app_assoc.
    reflexivity.
Qed.

Lemma dup_barrier u pre X :
  is_ident u = true -> no_second u X ->
  every_suffix (fun p => dup_rule u (p ++ 44%N :: X) = dup_rule u p) pre.
Proof.
  intros Hu HX. induction pre as [|c pre IH]; [exact I|].
  split; [apply dup_local; [exact Hu | exact HX | discriminate] | exact IH].
Qed.

Lemma no_second_run u w t :
  is_ident u = true -> spaces w -> stops is_space t ->
  (In nl w -> prefix_of (str u ++ str ".address)") t = false) ->
  no_second u (w ++ t).
Proof.
  intros Hu Hw Ht H w' rest Hw' Hin E.
  apply (run_unique is_space) in E as [-> ->]; auto using ident_stops.
  rewrite app_assoc, prefix_of_app in H. discriminate (H Hin).
Qed.

Lemma dup_at_none1 u w0 t :
  is_ident u = true -> spaces w0 -> stops is_space t ->
  prefix_of (str u ++ str ".address,") t = false ->
  dup_rule u (44%N :: w0 ++ t) = None.
Proof.
  intros Hu Hw0 Ht H. apply (recognises_none _ _ _ (dup_recognises u Hu)).
  intros m rest (w0' & w & -> & Hw0' & Hw & Hin) E. rewrite dup_seg_app in E.
  apply tl_eq in E.
  apply (run_unique is_space) in E as [-> ->]; auto using ident_stops.
  rewrite app_assoc, prefix_of_app in H. discriminate H.
Qed.

Lemma dup_at_none2 u w0 w t :
  is_ident u = true -> spaces w0 -> spaces w -> stops is_space t ->
  (In nl w -> prefix_of (str u ++ str ".address)") t = false) ->
  dup_rule u (44%N :: w0 ++ str u ++ str ".address," ++ w ++ t) = None.
Proof.
  intros Hu Hw0 Hw Ht H. apply (recognises_none _ _ _ (dup_recognises u Hu)).
  intros m rest (w0' & w' & -> & Hw0' & Hw' & Hin) E. rewrite dup_seg_app in E.
  apply tl_eq in E.
  apply (run_unique is_space) in E as [-> E]; auto using ident_stops.
  apply app_inv_head in E. apply app_inv_head in E.
  apply (run_unique is_space) in E as [-> ->]; auto using ident_stops.
  rewrite app_assoc, prefix_of_app in H. discriminate (H Hin).
Qed.

Lemma dup_at_some u w0 w rest :
  is_ident u = true -> spaces w0 -> spaces w -> In nl w ->
  dup_rule u (dup_seg u w0 w ++ rest)
  = Some (length (dup_seg u w0 w), dup_repl u).
Proof.
  intros Hu Hw0 Hw Hin. apply (recognises_some _ _ _ (dup_recognises u Hu)).
  exists w0, w. auto.
Qed.

(** *** The four passes around a duplicated argument *)

Lemma user_ident u : user u -> is_ident u = true.
Proof. intros [-> | ->]; reflexivity. Qed.

Lemma no_nl_blank : In nl [32%N] -> False.
Proof. intros [H|[]]. discriminate H. Qed.

Lemma dup_seg_eq u w0 w :
  dup_seg u w0 w =
  44%N :: (w0 ++ str u ++ str ".address")
       ++ 44%N :: (w ++ str u ++ str ".address)").
Proof.
  rewrite <- (app_nil_r (dup_seg u w0 w)), dup_seg_cut, app_nil_r.
  reflexivity.
Qed.

Lemma dup_repl_eq u :
  dup_repl u = 44%N :: ([32%N] ++ str u ++ str ".address)").
Proof. reflexivity. Qed.

Lemma blank_addr_free u close (w : text) :
  is_ident u = true -> spaces w -> free_of 44%N (str close) ->
  free_of 44%N (w ++ str u ++ str close).
Proof.
  intros Hu Hw Hc. apply free_of_app. split.
  - apply spaces_free; [reflexivity | exact Hw].
  - apply addr_free; assumption.
Qed.

Section Around.
Variables (v u : string) (pre rest : text).
Hypotheses (Hv : user v) (Hu : user u).

Let Iv := user_ident v Hv.
Let Iu := user_ident u Hu.

(** Never does [,] follow [.address] where [)] stands. *)
Lemma comma_not_paren t :
  prefix_of (str v ++ str ".address,") (str u ++ str ".address)" ++ t) = false.
Proof. destruct Hv as [-> | ->], Hu as [-> | ->]; reflexivity. Qed.

Lemma tail_keeps_single :
  scan (tail_rule v) (pre ++ dup_repl u ++ rest)
  = scan (tail_rule v) pre ++ dup_repl u ++ scan (tail_rule v) rest.
Proof.
  apply scan_inert.
  - apply (recognises_bounded _ _ _ (tail_recognises v Iv)).
  - rewrite dup_repl_eq. cbn [app]. apply tail_barrier, Iv.
  - rewrite dup_repl_eq. apply inert1.
    + apply tail_comma_led.
    + apply blank_addr_free; [exact Iu | reflexivity | reflexivity].
    + rewrite <- !app_assoc. apply tail_at_none; auto using ident_stops.
      * reflexivity.
      * intros []%no_nl_blank.
Qed.

Lemma dup_keeps_single :
  scan (dup_rule v) (pre ++ dup_repl u ++ rest)
  = scan (dup_rule v) pre ++ dup_repl u ++ scan (dup_rule v) rest.
Proof.
  apply scan_inert.
  - apply (recognises_bounded _ _ _ (dup_recognises v Iv)).
  - rewrite dup_repl_eq. cbn [app]. apply dup_barrier; [exact Iv|].
    rewrite <- !app_assoc.
    apply (no_second_run v [32%N] (str u ++ str ".address)" ++ rest));
      auto using ident_stops.
    + reflexivity.
    + intros []%no_nl_blank.
  - rewrite dup_repl_eq. apply inert1.
    + apply dup_comma_led.
    + apply blank_addr_free; [exact Iu | reflexivity | reflexivity].
    + rewrite <- !app_assoc. apply dup_at_none1; auto using ident_stops.
      * reflexivity.
      * apply comma_not_paren.
Qed.

Variable w : text.
Hypotheses (Hw : spaces w) (Hnl : In nl w).

Lemma tail_keeps_pair :
  prefix_of (str v ++ str ".address);") (str u ++ str ".address)" ++ rest)
  = false ->
  scan (tail_rule v) (pre ++ dup_seg u [32%N] w ++ rest)
  = scan (tail_rule v) pre ++ dup_seg u [32%N] w ++ scan (tail_rule v) rest.
Proof.
  intros H. apply scan_inert.
  - apply (recognises_bounded _ _ _ (tail_recognises v Iv)).
  - rewrite dup_seg_app. apply tail_barrier, Iv.
  - rewrite dup_seg_eq. apply inert2.
    + apply tail_comma_led.
    + apply blank_addr_free; [exact Iu | reflexivity | reflexivity].
    + apply blank_addr_free; [exact Iu | exact Hw | reflexivity].
    + rewrite <- !app_assoc. apply tail_at_none; auto using ident_stops.
      * reflexivity.
      * intros []%no_nl_blank.
    + rewrite <- !app_assoc. apply tail_at_none; auto using ident_stops.
Qed.

Lemma dup_keeps_pair :
  v <> u ->
  scan (dup_rule v) (pre ++ dup_seg u [32%N] w ++ rest)
  = scan (dup_rule v) pre ++ dup_seg u [32%N] w ++ scan (dup_rule v) rest.
Proof.
  intros Hne. apply scan_inert.
  - apply (recognises_bounded _ _ _ (dup_recognises v Iv)).
  - rewrite dup_seg_app. apply dup_barrier; [exact Iv|].
    apply no_second_run; auto using ident_stops.
    + reflexivity.
    + intros []%no_nl_blank.
  - rewrite dup_seg_eq. apply inert2.
    + apply dup_comma_led.
    + apply blank_addr_free; [exact Iu | reflexivity | reflexivity].
    + apply blank_addr_free; [exact Iu | exact Hw | reflexivity].
    + rewrite <- !app_assoc. apply dup_at_none1; auto using ident_stops.
      * reflexivity.
      * destruct Hv as [-> | ->], Hu as [-> | ->];
          try reflexivity; congruence.
    + rewrite <- !app_assoc. apply dup_at_none1; auto using ident_stops.
      apply comma_not_paren.
Qed.
End Around.

Lemma tail_fires u pre w q :
  user u -> spaces w -> In nl w ->
  scan (tail_rule u) (pre ++ dup_seg u [32%N] w ++ 59%N :: q)
  = scan (tail_rule u) pre ++ dup_repl u ++ scan (tail_rule u) (59%N :: q).
Proof.
  intros Hu Hw Hnl. pose proof (user_ident u Hu) as Iu.
  assert (E : dup_seg u [32%N] w ++ 59%N :: q
              = (44%N :: [32%N] ++ str u ++ str ".address")
                ++ tail_seg u w ++ q).
  { rewrite dup_seg_app, tail_seg_app. cbn [app]. rewrite <- !app_assoc.
    reflexivity. }
  rewrite E. rewrite scan_inert.
  - rewrite (scan_hit _ _ _ _ (tail_at_some u w q Iu Hw Hnl)).
    + rewrite drop_app_length.
      rewrite (scan_miss _ 59%N q) by (apply tail_comma_led; discriminate).
      f_equal. unfold dup_repl. cbn [app]. rewrite <- !app_assoc. reflexivity.
    + unfold tail_seg. cbn [length]. lia.
    + unfold tail_seg. discriminate.
  - apply (recognises_bounded _ _ _ (tail_recognises u Iu)).
  - cbn [app]. apply tail_barrier, Iu.
  - apply inert1.
    + apply tail_comma_led.
    + apply blank_addr_free; [exact Iu | reflexivity | reflexivity].
    + rewrite <- !app_assoc. apply tail_at_none; auto using ident_stops.
      * reflexivity.
      * intros []%no_nl_blank.
Qed.

Lemma dup_fires u pre w rest :
  user u -> spaces w -> In nl w ->
  scan (dup_rule u) (pre ++ dup_seg u [32%N] w ++ rest)
  = scan (dup_rule u) pre ++ dup_repl u ++ scan (dup_rule u) rest.
Proof.
  intros Hu Hw Hnl. pose proof (user_ident u Hu) as Iu.
  apply scan_fire.
  - apply (recognises_bounded _ _ _ (dup_recognises u Iu)).
  - unfold dup_seg. discriminate.
  - rewrite dup_seg_app. apply dup_barrier; [exact Iu|].
    apply no_second_run; auto using ident_stops.
    + reflexivity.
    + intros []%no_nl_blank.
  - apply dup_at_some; auto. reflexivity.
Qed.

Lemma semi_follows u rest :
  prefix_of (str u ++ str ".address);") (str u ++ str ".address)" ++ rest)
  = true ->
  exists q, rest = 59%N :: q.
Proof.
  rewrite prefix_of_cancel.
  change (str ".address);") with (str ".address)" ++ [59%N]).
  rewrite prefix_of_cancel. destruct rest as [|c q]; [discriminate|].
  cbn [prefix_of]. intros [->%N.eqb_eq _]%andb_true_iff. eauto.
Qed.

(** What a pass for the identifier [v] leaves of a duplicated argument of
    [u]: the pair as it was, or the single argument. *)
Lemma tail_step v u pre w rest :
  user v -> user u -> spaces w -> In nl w ->
  scan (tail_rule v) (pre ++ dup_seg u [32%N] w ++ rest)
  = scan (tail_rule v) pre ++ dup_seg u [32%N] w ++ scan (tail_rule v) rest
  \/ scan (tail_rule v) (pre ++ dup_seg u [32%N] w ++ rest)
     = scan (tail_rule v) pre ++ dup_repl u ++ scan (tail_rule v) rest.
Proof.
  intros Hv Hu Hw Hnl.
  destruct (prefix_of (str v ++ str ".address);")
              (str u ++ str ".address)" ++ rest)) eqn:E.
  - right. assert (v = u /\ exists q, rest = 59%N :: q) as [-> [q ->]].
    { destruct Hv as [-> | ->], Hu as [-> | ->]; try discriminate E;
        (split; [reflexivity|]); apply (semi_follows _ _ E). }
    apply tail_fires; assumption.
  - left. apply tail_keeps_pair; assumption.
Qed.
Lemma user1 : user "user1".
Proof. left; reflexivity. Qed.

Lemma user2 : user "user2".
Proof. right; reflexivity. Qed.

Lemma dedup_eq t :
  dedup t = scan (dup_rule "user2") (scan (dup_rule "user1")
              (scan (tail_rule "user2") (scan (tail_rule "user1") t))).
Proof. reflexivity. Qed.

Lemma dup_seg_text u w :
  str ", " ++ str u ++ str ".address," ++ w ++ str u ++ str ".address)"
  = dup_seg u [32%N] w.
Proof. reflexivity. Qed.

End CleanupFacts.

(* ===================================================================== *)
(** ** Literal replacement *)

Lemma overlaps_spec a : forall b r r',
  a ++ r = b ++ r' -> overlaps a b = true.
Proof.
  unfold overlaps. induction a as [|x a IH]; intros [|y b] r r' E.
  - reflexivity.
  - reflexivity.
  - cbn [prefix_of]. apply orb_true_r.
  - cbn [app] in E. apply CleanupFacts.cons_eq in E as [-> E].
    cbn [prefix_of]. rewrite N.eqb_refl. cbn [andb]. exact (IH _ _ _ E).
Qed.

Lemma prefix_of_shorter old p X :
  length old <= length p -> prefix_of old (p ++ X) = prefix_of old p.
Proof.
  revert p; induction old as [|a old IH]; intros [|b p] H; cbn [length] in H;
    try reflexivity; try lia.
  cbn [app prefix_of]. rewrite IH by lia. reflexivity.
Qed.

Lemma prefix_of_longer old : forall p X,
  length p < length old -> prefix_of old (p ++ X) = true ->
  exists r, skipn (length p) old ++ r = X.
Proof.
  induction old as [|a old IH]; intros [|b p] X H E; cbn [length] in H;
    try lia.
  - cbn [app] in E. apply prefix_of_spec in E as [r ->]. exists r. reflexivity.
  - cbn [app prefix_of] in E. apply andb_true_iff in E as [_ E].
    apply IH in E; [exact E | lia].
Qed.

Lemma prefix_of_short_false old p :
  length p < length old -> prefix_of old p = false.
Proof.
  intros H. destruct (prefix_of old p) eqn:E; [|reflexivity].
  apply prefix_of_length in E. lia.
Qed.

Section Replace.
Variables old new : text.

Lemma replace_local seg p rest :
  clear_before old seg = true -> p <> [] ->
  replace_rule old new (p ++ seg ++ rest) = replace_rule old new p.
Proof.
  intros Hc Hp. unfold replace_rule.
  destruct (Nat.le_gt_cases (length old) (length p)) as [Hl|Hl].
  - rewrite prefix_of_shorter by exact Hl. reflexivity.
  - rewrite (prefix_of_short_false old p Hl).
    destruct (prefix_of old (p ++ seg ++ rest)) eqn:E; [|reflexivity].
    apply prefix_of_longer in E as [r E]; [|exact Hl].
    apply overlaps_spec in E. unfold clear_before in Hc.
    rewrite forallb_forall in Hc.
    specialize (Hc (length p)). rewrite E in Hc.
    discriminate Hc. apply in_seq. destruct p; [congruence|].
    cbn [length] in *. lia.
Qed.

Lemma replace_barrier seg pre rest :
  clear_before old seg = true ->
  every_suffix (fun p => replace_rule old new (p ++ seg ++ rest)
                         = replace_rule old new p) pre.
Proof.
  intros Hc. induction pre as [|c pre IH]; [exact I|].
  split; [apply replace_local; [exact Hc | discriminate] | exact IH].
Qed.

Lemma replace_inside seg rest :
  clear_inside old seg = true ->
  every_suffix (fun p => replace_rule old new (p ++ rest) = None) seg.
Proof.
  unfold clear_inside. intros Hc.
  assert (H : forall j, j <= length seg ->
            every_suffix (fun p => replace_rule old new (p ++ rest) = None)
                         (skipn j seg)).
  { intros j. remember (length seg - j) as k eqn:Hk.
    revert j Hk. induction k as [|k IH]; intros j Hk Hj.
    - rewrite skipn_all2 by lia. exact I.
    - destruct (skipn j seg) as [|c t] eqn:E.
      + exact I.
      + split.
        * unfold replace_rule.
          destruct (prefix_of old ((c :: t) ++ rest)) eqn:P; [|reflexivity].
          apply prefix_of_spec in P as [r P]. symmetry in P.
          apply overlaps_spec in P. rewrite forallb_forall in Hc.
          specialize (Hc j). rewrite E, P in Hc. discriminate Hc.
          apply in_seq. lia.
        * assert (t = skipn (S j) seg) as ->.
          { rewrite <- (Nat.add_1_l j), <- skipn_skipn.
            change (skipn j seg) with (drop j seg). rewrite E. reflexivity. }
          apply IH; lia. }
  apply (H 0). lia.
Qed.

Lemma replace_inert seg pre rest :
  clear_before old seg = true -> clear_inside old seg = true ->
  replace old new (pre ++ seg ++ rest)
  = replace old new pre ++ seg ++ replace old new rest.
Proof.
  intros H1 H2. apply scan_inert.
  - apply replace_rule_bounded.
  - apply replace_barrier, H1.
  - apply replace_inside, H2.
Qed.

Lemma replace_fires pre rest :
  old <> [] -> clear_before old old = true ->
  replace old new (pre ++ old ++ rest)
  = replace old new pre ++ new ++ replace old new rest.
Proof.
  intros Hne Hc. apply scan_fire.
  - apply replace_rule_bounded.
  - exact Hne.
  - apply replace_barrier, Hc.
  - unfold replace_rule. rewrite prefix_of_app. reflexivity.
Qed.

Lemma occurs_suffixes t :
  occurs old t = false ->
  every_suffix (fun p => replace_rule old new p = None) t.
Proof.
  induction t as [|c t IH]; [intros; exact I|].
  cbn [occurs]. intros [H1 H2]%orb_false_iff. split; [|auto].
  unfold replace_rule. rewrite H1. reflexivity.
Qed.

Lemma replace_id t : occurs old t = false -> replace old new t = t.
Proof. intros H. apply scan_id, occurs_suffixes, H. Qed.
End Replace.

(* ===================================================================== *)
(** ** [fix_test.py]: the two insertion patterns *)

(** A stretch in front on which the rule never fires is copied. *)
Lemma scan_skip f pre rest :
  bounded f -> every_suffix (fun p => f (p ++ rest) = None) pre ->
  scan f (pre ++ rest) = pre ++ scan f rest.
Proof. intros Hb H. apply (scan_inert f [] pre rest Hb I H). Qed.

Module FixTestFacts.
Import Re ReFacts FixTest CleanupFacts.

Lemma is_slot_free a :
  is_slot a = true -> a <> [] /\ free_of 44%N a /\ free_of 41%N a.
Proof.
  intros H. split; [destruct a; [discriminate H | discriminate]|].
  assert (Hf : forallb (fun x => negb (x =? 44)%N && negb (x =? 41)%N) a = true)
    by (destruct a; [discriminate H | exact H]).
  clear H. unfold free_of. induction a as [|x a IH]; [split; reflexivity|].
  cbn [forallb] in *. apply andb_true_iff in Hf as [[H1 H2]%andb_true_iff Hf].
  destruct (IH Hf) as [IH1 IH2]. rewrite H1, H2, IH1, IH2. split; reflexivity.
Qed.

(** One argument and the delimiter [c] behind it: [\s*[^c]+] followed by a
    rest of the pattern that starts at the delimiter. *)
Lemma exec_slot c K ms a s r : forall i,
  is_space c = false -> a <> [] -> free_of c a ->
  exec K ms (i + length a) (c :: s) = Some r ->
  exec (Star Space :: Plus (Except c) :: K) ms i (a ++ c :: s) = Some r.
Proof.
  intros i Hc Hne Ha HK. cbn [exec].
  set (k := fun j t =>
     match t with
     | x :: s' =>
         if in_cls (Except c) x
         then star (in_cls (Except c)) (exec K ms) (S j) s' else None
     | [] => None
     end).
  assert (Hk : forall b j, b <> [] -> free_of c b -> j + length b = i + length a ->
                 k j (b ++ c :: s) = Some r).
  { intros [|x b] j Hb Hf Hj; [congruence|]. unfold k. cbn [app].
    apply andb_true_iff in Hf as [Hx Hf]. cbn [in_cls]. rewrite Hx.
    apply star_greedy.
    - exact Hf.
    - cbn [stops in_cls]. rewrite N.eqb_refl. reflexivity.
    - cbn [length] in Hj. replace (S j + length b) with (i + length a) by lia.
      exact HK. }
  assert (Hn : forall j, k j (c :: s) = None).
  { intros j. unfold k. cbn [in_cls]. rewrite N.eqb_refl. reflexivity. }
  change (star (in_cls Space) k i (a ++ c :: s) = Some r).
  clear HK. revert i Hk. induction a as [|x a IH]; intros i Hk; [congruence|].
  apply andb_true_iff in Ha as [Hx Ha]. cbn [app star in_cls].
  destruct (is_space x) eqn:Sx.
  - destruct a as [|y a].
    + cbn [app star in_cls]. rewrite Hc, Hn.
      apply (Hk [x] i); [discriminate | | reflexivity].
      unfold free_of. cbn [forallb]. rewrite Hx. reflexivity.
    + rewrite IH; [reflexivity | discriminate | exact Ha |].
      intros b j Hb Hf Hj. apply Hk; auto. cbn [length] in *. lia.
  - apply (Hk (x :: a) i); [discriminate | | reflexivity].
    unfold free_of. cbn [forallb]. rewrite Hx. exact Ha.
Qed.

Lemma one_or_two u : user u -> exists d, str u = str "user" ++ [d]
                                 /\ in_cls (OneOf (str "12")) d = true.
Proof.
  intros [-> | ->]; [exists 49%N | exists 50%N]; split; reflexivity.
Qed.

(** The matcher on the receiver text. *)
Lemma exec_head u m K ms i s :
  user u ->
  exec (head m ++ K) ms i (receiver u m ++ s)
  = exec K ((3, i + 18) :: (2, i + 13) :: ms)
      (i + 18 + length (str (")." ++ m ++ "("))) s.
Proof.
  intros Hu. destruct (one_or_two u Hu) as (d & E & Hd).
  unfold head, receiver, lit. rewrite E.
  rewrite <- !app_assoc. rewrite exec_lits.
  cbn [app exec grp_open grp_close Nat.mul Nat.add Nat.sub].
  rewrite exec_lits. cbn [app exec]. rewrite Hd.
  cbn [app exec grp_open grp_close Nat.mul Nat.add Nat.sub]. rewrite exec_lits.
  change (length (str "pool.connect(")) with 13.
  change (length (str "user")) with 4.
  replace (S (i + 13 + 4)) with (i + 18) by lia. reflexivity.
Qed.

Lemma exec_mark m ns ms i s :
  exec (Mark m :: ns) ms i s = exec ns ((m, i) :: ms) i s.
Proof. reflexivity. Qed.

(** [\s*[^,]+,] on an argument followed by a comma. *)
Lemma exec_slot_comma K ms i a s r :
  a <> [] -> free_of 44%N a ->
  exec K ms (i + length a + 1) s = Some r ->
  exec (slot ++ K) ms i (a ++ 44%N :: s) = Some r.
Proof.
  intros Hne Ha HK. unfold slot. cbn [app].
  apply exec_slot; [reflexivity | assumption | assumption |].
  cbn [exec]. rewrite N.eqb_refl.
  replace (S (i + length a)) with (i + length a + 1) by lia. exact HK.
Qed.

(** [\s*[^)]+)(\s*\))] on the last argument and the closing parenthesis. *)
Lemma exec_last ms i a s :
  a <> [] -> free_of 41%N a ->
  exec last_slot ms i (a ++ 41%N :: s)
  = Some (Found (i + length a + 1)
            ((5, i + length a + 1) :: (4, i + length a)
             :: (1, i + length a) :: ms)).
Proof.
  intros Hne Ha. unfold last_slot.
  apply exec_slot; [reflexivity | assumption | assumption |].
  unfold grp_open, grp_close. cbn [exec star in_cls Nat.mul Nat.add Nat.sub].
  change (is_space 41%N) with false. cbn iota. rewrite N.eqb_refl.
  replace (S (i + length a)) with (i + length a + 1) by lia. reflexivity.
Qed.

Lemma pattern_on_call u a1 a2 a3 a4 a5 post :
  user u ->
  is_slot a1 = true -> is_slot a2 = true -> is_slot a3 = true ->
  is_slot a4 = true -> is_slot a5 = true ->
  let body := open_call u a1 a2 a3 a4 a5 in
  re_rule pattern replace_func (body ++ 41%N :: post)
  = Some (S (length body), body ++ inserted u ++ [41%N]).
Proof.
  intros Hu (N1 & F1 & _)%is_slot_free (N2 & F2 & _)%is_slot_free
    (N3 & F3 & _)%is_slot_free (N4 & F4 & _)%is_slot_free
    (N5 & _ & F5)%is_slot_free body.
  set (L := length body).
  assert (HL : L = 33 + (length a1 + 1) + (length a2 + 1) + (length a3 + 1)
                 + (length a4 + 1) + length a5).
  { unfold L, body, open_call, receiver.
    rewrite !length_app. cbn [length].
    destruct Hu as [-> | ->]; cbn [length]; vm_compute (length (str _)); lia. }
  assert (E : match_here pattern (body ++ 41%N :: post)
              = Some (Found (S L)
                  [(5, S L); (4, L); (1, L); (3, 18); (2, 13); (0, 0)])).
  { unfold match_here, pattern, body, open_call. cbn [app].
    unfold grp_open at 1. cbn [Nat.mul Nat.add Nat.sub]. rewrite exec_mark.
    change (str ",") with [44%N].
    rewrite <- !app_assoc. rewrite exec_head by exact Hu. cbn [app].
    do 4 (apply exec_slot_comma; [assumption | assumption |]).
    rewrite exec_last by assumption. f_equal.
    vm_compute (length (str _)).
    replace (0 + 18 + 15 + length a1 + 1 + length a2 + 1 + length a3 + 1
             + length a4 + 1 + length a5) with L by lia.
    replace (L + 1) with (S L) by lia. reflexivity. }
  unfold re_rule. rewrite E. cbn [stop]. f_equal. f_equal.
  unfold replace_func, group. cbn [caps mark_at Nat.mul Nat.add Nat.sub Nat.eqb].
  assert (G2 : take 5 (drop 13 (body ++ 41%N :: post)) = str u).
  { unfold body, open_call, receiver. rewrite <- !app_assoc.
    rewrite (drop_app_length' (str "pool.connect(")) by reflexivity.
    apply take_app_length'. destruct Hu as [-> | ->]; reflexivity. }
  rewrite G2. change (drop 0 (body ++ 41%N :: post)) with (body ++ 41%N :: post).
  rewrite Nat.sub_0_r. replace (S L - L) with 1 by lia. unfold L.
  rewrite take_app_length, drop_app_length. cbn [take]. unfold inserted.
  rewrite <- !app_assoc. reflexivity.
Qed.

(** Every match starts with the receiver text of one of the two
    identifiers. *)
Lemma head_receiver m K s n :
  lang (head m ++ K) s n ->
  exists u, user u /\ prefix_of (receiver u m) s = true.
Proof.
  unfold head, lit. rewrite <- !app_assoc.
  intros (s1 & n1 & -> & -> & H)%lang_lits.
  cbn [app lang grp_open grp_close] in H.
  apply lang_lits in H as (s2 & n2 & -> & -> & H).
  cbn [app lang] in H.
  destruct H as (x & s3 & n3 & -> & Hx & -> & H).
  apply lang_lits in H as (s4 & n4 & -> & -> & _).
  assert (x = 49%N \/ x = 50%N) as [-> | ->].
  { change (existsb (N.eqb x) [49%N; 50%N] = true) in Hx. cbn [existsb] in Hx.
    apply orb_true_iff in Hx as [H|H]; [left; apply N.eqb_eq, H|].
    apply orb_true_iff in H as [H|H]; [right; apply N.eqb_eq, H | discriminate]. }
  - exists "user1"%string. split; [left; reflexivity|].
    apply prefix_of_spec. exists s4. unfold receiver.
    rewrite <- !app_assoc. reflexivity.
  - exists "user2"%string. split; [right; reflexivity|].
    apply prefix_of_spec. exists s4. unfold receiver.
    rewrite <- !app_assoc. reflexivity.
Qed.

Lemma pattern_receiver s r :
  match_here pattern s = Some r ->
  exists u, user u /\ prefix_of (receiver u "addLiquidity") s = true.
Proof.
  intros (n & _ & H)%exec_sound. unfold pattern in H. cbn [app lang grp_open] in H.
  exact (head_receiver _ _ _ _ H).
Qed.

Lemma pattern2_receiver s r :
  match_here pattern2 s = Some r ->
  exists u, user u /\ prefix_of (receiver u "removeLiquidity") s = true.
Proof.
  intros (n & _ & H)%exec_sound. unfold pattern2 in H. cbn [app lang grp_open] in H.
  exact (head_receiver _ _ _ _ H).
Qed.

Lemma begins_in_suffixes h pre rest :
  begins_in h pre rest = false ->
  every_suffix (fun p => prefix_of h (p ++ rest) = false) pre.
Proof.
  induction pre as [|c pre IH]; [intros; exact I|].
  cbn [begins_in]. intros [H1 H2]%orb_false_iff. split; auto.
Qed.

Lemma occurs_every_suffix h t :
  occurs h t = false -> every_suffix (fun p => prefix_of h p = false) t.
Proof.
  induction t as [|c t IH]; [intros; exact I|].
  cbn [occurs]. intros [H1 H2]%orb_false_iff. split; auto.
Qed.

Lemma every_suffix_and (P Q : text -> Prop) l :
  every_suffix P l -> every_suffix Q l ->
  every_suffix (fun s => P s /\ Q s) l.
Proof.
  induction l as [|c l IH]; [intros; exact I|].
  intros [H1 H2] [H3 H4]. split; auto.
Qed.

Lemma pattern_rule_none s :
  prefix_of (receiver "user1" "addLiquidity") s = false ->
  prefix_of (receiver "user2" "addLiquidity") s = false ->
  re_rule pattern replace_func s = None.
Proof.
  intros H1 H2. unfold re_rule.
  destruct (match_here pattern s) as [r|] eqn:E; [|reflexivity].
  apply pattern_receiver in E as (u & [-> | ->] & E); congruence.
Qed.

Lemma pattern2_rule_none s :
  prefix_of (receiver "user1" "removeLiquidity") s = false ->
  prefix_of (receiver "user2" "removeLiquidity") s = false ->
  re_rule pattern2 replace_func s = None.
Proof.
  intros H1 H2. unfold re_rule.
  destruct (match_here pattern2 s) as [r|] eqn:E; [|reflexivity].
  apply pattern2_receiver in E as (u & [-> | ->] & E); congruence.
Qed.

End FixTestFacts.

(* ===================================================================== *)
(** ** Following a character through the passes *)

(** The normalizer is the nine passes in a row. *)
Lemma normalize_passes t : normalize t = run_passes passes t.
Proof. reflexivity. Qed.

Section Track.
Variable f : rule.

Lemma track_char s : forall k i j,
  track f k s i = Some j ->
  scan_from f k s !! j = s !! i /\ i < length s.
Proof.
  induction s as [|c s IH]; intros k i j H; [discriminate|].
  cbn [track scan_from] in *. destruct k as [|k].
  - destruct (f (c :: s)) as [[[|n] r]|].
    + destruct i as [|i]; [injection H as <-; cbn; split; [reflexivity|lia]|].
      destruct (track f 0 s i) as [j0|] eqn:E; [|discriminate].
      injection H as <-. apply IH in E as [E1 E2]. cbn. split; [exact E1|lia].
    + destruct i as [|i]; [discriminate|].
      destruct (track f n s i) as [j0|] eqn:E; [|discriminate].
      injection H as <-. apply IH in E as [E1 E2]. cbn [length].
      split; [|lia]. unfold text, char in *. rewrite lookup_app_r by lia.
      replace (length r + j0 - length r) with j0 by lia. exact E1.
    + destruct i as [|i]; [injection H as <-; cbn; split; [reflexivity|lia]|].
      destruct (track f 0 s i) as [j0|] eqn:E; [|discriminate].
      injection H as <-. apply IH in E as [E1 E2]. cbn. split; [exact E1|lia].
  - destruct i as [|i]; [discriminate|].
    apply IH in H as [E1 E2]. cbn. split; [exact E1|lia].
Qed.

Lemma track_mono s : forall k i i' j j',
  track f k s i = Some j -> track f k s i' = Some j' -> i < i' -> j < j'.
Proof.
  induction s as [|c s IH]; intros k i i' j j' H H' Hlt; [discriminate|].
  cbn [track] in *. destruct i' as [|i']; [lia|]. destruct k as [|k].
  - destruct (f (c :: s)) as [[[|n] r]|].
    + destruct (track f 0 s i') as [j0'|] eqn:E'; [|discriminate].
      injection H' as <-. destruct i as [|i]; [injection H as <-; lia|].
      destruct (track f 0 s i) as [j0|] eqn:E; [|discriminate].
      injection H as <-. assert (j0 < j0') by (eapply IH; eauto; lia). lia.
    + destruct (track f n s i') as [j0'|] eqn:E'; [|discriminate].
      injection H' as <-. destruct i as [|i]; [discriminate|].
      destruct (track f n s i) as [j0|] eqn:E; [|discriminate].
      injection H as <-. assert (j0 < j0') by (eapply IH; eauto; lia). lia.
    + destruct (track f 0 s i') as [j0'|] eqn:E'; [|discriminate].
      injection H' as <-. destruct i as [|i]; [injection H as <-; lia|].
      destruct (track f 0 s i) as [j0|] eqn:E; [|discriminate].
      injection H as <-. assert (j0 < j0') by (eapply IH; eauto; lia). lia.
  - destruct i as [|i]; [discriminate|]. eapply IH; eauto. lia.
Qed.

Lemma track_next s : forall k i j j',
  track f k s i = Some j -> track f k s (S i) = Some j' -> j' = S j.
Proof.
  induction s as [|c s IH]; intros k i j j' H H'; [discriminate|].
  cbn [track] in H, H'. destruct k as [|k].
  - destruct (f (c :: s)) as [[[|n] r]|] eqn:Ef.
    + destruct (track f 0 s i) as [j0'|] eqn:E'; [|discriminate].
      injection H' as <-. destruct i as [|i].
      * injection H as <-. destruct s as [|d s]; [discriminate|].
        cbn [track] in E'. destruct (f (d :: s)) as [[[|?] ?]|];
          congruence.
      * destruct (track f 0 s i) as [j0|] eqn:E; [|discriminate].
        injection H as <-. f_equal. eapply IH; eauto.
    + destruct (track f n s i) as [j0'|] eqn:E'; [|discriminate].
      injection H' as <-. destruct i as [|i]; [discriminate|].
      destruct (track f n s i) as [j0|] eqn:E; [|discriminate].
      injection H as <-. rewrite (IH _ _ _ _ E E'). cbn. lia.
    + destruct (track f 0 s i) as [j0'|] eqn:E'; [|discriminate].
      injection H' as <-. destruct i as [|i].
      * injection H as <-. destruct s as [|d s]; [discriminate|].
        cbn [track] in E'. destruct (f (d :: s)) as [[[|?] ?]|];
          congruence.
      * destruct (track f 0 s i) as [j0|] eqn:E; [|discriminate].
        injection H as <-. f_equal. eapply IH; eauto.
  - destruct i as [|i]; [discriminate|]. eapply IH; eauto.
Qed.
End Track.

Lemma survive_char fs : forall t i j,
  survive fs t i = Some j -> run_passes fs t !! j = t !! i /\ i < length t.
Proof.
  induction fs as [|f fs IH]; intros t i j H; cbn [survive run_passes fold_left] in *.
  - destruct (decide (i < length t)); [|discriminate]. injection H as <-. auto.
  - destruct (track f 0 t i) as [j0|] eqn:E; [|discriminate].
    apply IH in H as [H _]. apply track_char in E as [E Hi].
    split; [|exact Hi]. unfold run_passes in H. rewrite H. exact E.
Qed.

Lemma survive_mono fs : forall t i i' j j',
  survive fs t i = Some j -> survive fs t i' = Some j' -> i < i' -> j < j'.
Proof.
  induction fs as [|f fs IH]; intros t i i' j j' H H' Hlt; cbn [survive] in *.
  - destruct (decide (i < length t)); [|discriminate].
    destruct (decide (i' < length t)); [|discriminate]. congruence.
  - destruct (track f 0 t i) as [j0|] eqn:E; [|discriminate].
    destruct (track f 0 t i') as [j0'|] eqn:E'; [|discriminate].
    eapply IH; eauto. eapply track_mono; eauto.
Qed.

Lemma survive_next fs : forall t i j j',
  survive fs t i = Some j -> survive fs t (S i) = Some j' -> j' = S j.
Proof.
  induction fs as [|f fs IH]; intros t i j j' H H'; cbn [survive] in *.
  - destruct (decide (i < length t)); [|discriminate].
    destruct (decide (S i < length t)); [|discriminate]. congruence.
  - destruct (track f 0 t i) as [j0|] eqn:E; [|discriminate].
    destruct (track f 0 t (S i)) as [j0'|] eqn:E'; [|discriminate].
    rewrite (track_next _ _ _ _ _ _ E E') in H'. eapply IH; eauto.
Qed.

(* ===================================================================== *)
(** ** Every pass consumes at least one character *)

Import Re Cleanup FixTest CleanupFacts FixTestFacts.

(** X9.  No pass of the normalizer reports an empty match: every pattern
    and every literal of the two scripts takes at least one character, so
    the loop [scan_from] never meets the case [re.sub] treats specially. *)
Lemma rules_consume f s n r : In f passes -> f s = Some (n, r) -> 0 < n.
Proof.
  intros Hin H. unfold passes in Hin. cbn [In] in Hin.
  destruct Hin as [<-|[<-|[<-|[<-|[<-|[<-|[<-|[<-|[<-|[]]]]]]]]]].
  - apply (tail_recognises "user1" eq_refl) in H
      as (m & rest & _ & (w & -> & _) & -> & _). cbn [tail_seg length]. lia.
  - apply (tail_recognises "user2" eq_refl) in H
      as (m & rest & _ & (w & -> & _) & -> & _). cbn [tail_seg length]. lia.
  - apply (dup_recognises "user1" eq_refl) in H
      as (m & rest & _ & (w0 & w & -> & _) & -> & _). cbn [dup_seg length]. lia.
  - apply (dup_recognises "user2" eq_refl) in H
      as (m & rest & _ & (w0 & w & -> & _) & -> & _). cbn [dup_seg length]. lia.
  - apply (replace_recognises bad1 good1) in H as (m & rest & _ & -> & -> & _).
    vm_compute. lia.
  - apply (replace_recognises bad2 good2) in H as (m & rest & _ & -> & -> & _).
    vm_compute. lia.
  - apply (replace_recognises bad3 good3) in H as (m & rest & _ & -> & -> & _).
    vm_compute. lia.
  - unfold re_rule in H.
    destruct (match_here pattern s) as [m|] eqn:E; [|discriminate].
    apply ReFacts.exec_sound in E as (k & Hk & Hl).
    assert (n = stop m) as -> by congruence. unfold pattern, head, lit in Hl.
    cbn [app lang grp_open] in Hl. rewrite <- !app_assoc in Hl.
    apply ReFacts.lang_lits in Hl as (s' & n' & _ & -> & _).
    vm_compute (length (str "pool.connect(")) in Hk. lia.
  - unfold re_rule in H.
    destruct (match_here pattern2 s) as [m|] eqn:E; [|discriminate].
    apply ReFacts.exec_sound in E as (k & Hk & Hl).
    assert (n = stop m) as -> by congruence. unfold pattern2, head, lit in Hl.
    cbn [app lang grp_open] in Hl. rewrite <- !app_assoc in Hl.
    apply ReFacts.lang_lits in Hl as (s' & n' & _ & -> & _).
    vm_compute (length (str "pool.connect(")) in Hk. lia.
Qed.

(* ===================================================================== *)
(** ** Texts that cannot stand in the output of a pass *)

Lemma every_suffix_occurs D o :
  D <> [] -> every_suffix (fun p => prefix_of D p = false) o ->
  occurs D o = false.
Proof.
  intros HD. induction o as [|c o IH]; cbn [occurs every_suffix].
  - intros _. destruct D; [congruence | reflexivity].
  - intros [H1 H2]. rewrite H1, (IH H2). reflexivity.
Qed.

Lemma occurs_suffixes_iff D o :
  occurs D o = false -> every_suffix (fun p => prefix_of D p = false) o.
Proof.
  induction o as [|c o IH]; [intros; exact I|].
  cbn [occurs]. intros [H1 H2]%orb_false_iff. split; auto.
Qed.

Lemma occurs_unfold p s :
  occurs p s
  = prefix_of p s || match s with [] => false | _ :: s' => occurs p s' end.
Proof. destruct s; reflexivity. Qed.

(** [occurs] is Python's [in]: some cut of the text has [p] in the middle. *)
Lemma occurs_spec p s :
  occurs p s = true <-> exists a b, s = a ++ p ++ b.
Proof.
  split.
  - induction s as [|c s IH]; rewrite occurs_unfold.
    + rewrite orb_false_r. intros [r E]%prefix_of_spec. exists [], r. exact E.
    + intros [[r E]%prefix_of_spec | (a & b & ->)%IH]%orb_true_iff.
      * exists [], r. exact E.
      * exists (c :: a), b. reflexivity.
  - intros (a & b & ->). induction a as [|c a IH]; rewrite occurs_unfold.
    + cbn [app]. rewrite prefix_of_app. reflexivity.
    + cbn [app]. rewrite IH. apply orb_true_r.
Qed.

Lemma occurs_app_l X D o : occurs (X ++ D) o = true -> occurs D o = true.
Proof.
  intros (a & b & ->)%occurs_spec. apply occurs_spec.
  exists (a ++ X), b. rewrite <- !app_assoc. reflexivity.
Qed.

Section Absent.
Variables (f : rule) (R D : text).
Hypothesis HD : D <> [].
Hypothesis Hconst : forall s n r, f s = Some (n, r) -> r = R.
(** No suffix of [D] agrees with the replacement. *)
Hypothesis HN : forall a d o Y, D = a ++ d -> d <> [] -> R ++ o <> d ++ Y.
(** [D] cannot begin inside the replacement. *)
Hypothesis HI : forall r1 r2 o Y, R = r1 ++ r2 -> r2 <> [] -> r2 ++ o <> D ++ Y.

(** An end of [D] in front of the output stood in front of the input. *)
Lemma output_front t : forall a d,
  D = a ++ d -> d <> [] ->
  prefix_of d (scan f t) = true -> prefix_of d t = true.
Proof.
  induction t as [|c t IH]; intros a d E Hd H.
  - exact H.
  - unfold scan in H. cbn [scan_from] in H.
    destruct (f (c :: t)) as [[[|n] r]|] eqn:Ef.
    + destruct d as [|x d]; [congruence|]. cbn [prefix_of] in *.
      apply andb_true_iff in H as [-> H]. cbn [andb].
      destruct d as [|y d]; [reflexivity|].
      apply (IH (a ++ [x]) (y :: d)); [rewrite <- app_assoc; exact E | discriminate | exact H].
    + apply Hconst in Ef as ->. apply prefix_of_spec in H as [Y H].
      destruct (HN a d _ Y E Hd H).
    + destruct d as [|x d]; [congruence|]. cbn [prefix_of] in *.
      apply andb_true_iff in H as [-> H]. cbn [andb].
      destruct d as [|y d]; [reflexivity|].
      apply (IH (a ++ [x]) (y :: d)); [rewrite <- app_assoc; exact E | discriminate | exact H].
Qed.

Lemma inside_replacement o :
  every_suffix (fun p => prefix_of D (p ++ o) = false) R.
Proof.
  assert (H : forall r1 r2, R = r1 ++ r2 ->
            every_suffix (fun p => prefix_of D (p ++ o) = false) r2).
  { intros r1 r2. revert r1. induction r2 as [|c r2 IH]; intros r1 E; [exact I|].
    split.
    - destruct (prefix_of D ((c :: r2) ++ o)) eqn:P; [|reflexivity].
      apply prefix_of_spec in P as [Y P].
      destruct (HI r1 (c :: r2) o Y E ltac:(discriminate) P).
    - apply (IH (r1 ++ [c])). rewrite <- app_assoc. exact E. }
  exact (H [] R eq_refl).
Qed.

(** If the pass rewrites every [D] it comes to, its output holds no [D]. *)
Lemma absent_after t : forall k,
  every_suffix
    (fun p => prefix_of D p = true -> exists n r, f p = Some (S n, r)) t ->
  every_suffix (fun p => prefix_of D p = false) (scan_from f k t).
Proof.
  induction t as [|c t IH]; intros k H; [exact I|].
  destruct H as [Hc H]. cbn [scan_from]. destruct k as [|k]; [|auto].
  destruct (f (c :: t)) as [[[|n] r]|] eqn:Ef.
  - split; [|auto].
    destruct (prefix_of D (c :: scan_from f 0 t)) eqn:P; [|reflexivity].
    assert (P' : prefix_of D (scan f (c :: t)) = true)
      by (unfold scan; cbn [scan_from]; rewrite Ef; exact P).
    apply (output_front (c :: t) [] D eq_refl HD) in P'.
    destruct (Hc P') as (n & r' & E). congruence.
  - apply Hconst in Ef as ->. apply every_suffix_app; [|auto].
    apply inside_replacement.
  - split; [|auto].
    destruct (prefix_of D (c :: scan_from f 0 t)) eqn:P; [|reflexivity].
    assert (P' : prefix_of D (scan f (c :: t)) = true)
      by (unfold scan; cbn [scan_from]; rewrite Ef; exact P).
    apply (output_front (c :: t) [] D eq_refl HD) in P'.
    destruct (Hc P') as (n & r' & E). congruence.
Qed.

Lemma absent_scan t :
  every_suffix
    (fun p => prefix_of D p = true -> exists n r, f p = Some (S n, r)) t ->
  occurs D (scan f t) = false.
Proof.
  intros H. apply every_suffix_occurs; [exact HD|]. apply absent_after, H.
Qed.

(** A pass keeps [D] out of a text that has none. *)
Lemma absent_kept t : occurs D t = false -> occurs D (scan f t) = false.
Proof.
  intros H. apply absent_scan. apply occurs_suffixes_iff in H.
  eapply every_suffix_impl; [|exact H]. intros p Hp Hq. congruence.
Qed.
End Absent.

(* ===================================================================== *)
(** ** What the duplicate-removal pass leaves behind *)

Module DedupFacts.
Import Re ReFacts Cleanup CleanupFacts.

Section Pair.
Variables (u v : string) (w0 w : text).
Hypotheses (Hu : user u) (Hv : user v).
Hypotheses (Hw0 : spaces w0) (Hw : spaces w) (Hnl : In nl w).

(** The single argument and the duplicated pair part ways behind the first
    address: [)] against [,]. *)
Lemma single_not_pair o Y : dup_repl v ++ o <> dup_seg u w0 w ++ Y.
Proof.
  intros E. rewrite dup_repl_eq, dup_seg_app in E. cbn [app] in E.
  apply tl_eq in E.
  change (32%N :: (str v ++ str ".address)") ++ o)
    with ([32%N] ++ (str v ++ str ".address)") ++ o) in E.
  rewrite <- app_assoc in E.
  apply (run_unique is_space) in E as [_ E];
    auto using ident_stops, user_ident.
  pose proof (comma_not_paren u v Hu Hv o) as C.
  rewrite E, app_assoc, prefix_of_app in C. discriminate C.
Qed.

(** The single argument is not the second half of a pair either: its white
    space holds no line break. *)
Lemma single_not_half o Y :
  dup_repl v ++ o <> 44%N :: (w ++ str u ++ str ".address)") ++ Y.
Proof.
  intros E. rewrite dup_repl_eq in E. cbn [app] in E. apply tl_eq in E.
  change (32%N :: (str v ++ str ".address)") ++ o)
    with ([32%N] ++ (str v ++ str ".address)") ++ o) in E.
  rewrite <- !app_assoc in E.
  apply (run_unique is_space) in E as [E _];
    auto using ident_stops, user_ident.
  rewrite <- E in Hnl. exact (no_nl_blank Hnl).
Qed.

Lemma pair_end_not_single a d o Y :
  dup_seg u w0 w = a ++ d -> d <> [] -> dup_repl v ++ o <> d ++ Y.
Proof.
  intros E Hd H. destruct a as [|x a].
  - cbn [app] in E. subst d. exact (single_not_pair _ _ H).
  - rewrite dup_seg_eq in E. cbn [app] in E. apply cons_eq in E as [<- E].
    destruct d as [|c d]; [congruence|].
    assert (c = 44%N) as ->.
    { rewrite dup_repl_eq in H. cbn [app] in H. apply cons_eq in H as [H _].
      congruence. }
    symmetry in E. apply first_cut in E as [[-> ->]|(q & _ & E)].
    + exact (single_not_half _ _ H).
    + assert (F : free_of 44%N (w ++ str u ++ str ".address)"))
        by (apply blank_addr_free; auto using user_ident; reflexivity).
      rewrite E in F. apply free_of_app in F as [_ F].
      unfold free_of in F. cbn [forallb] in F. rewrite N.eqb_refl in F.
      discriminate F.
    + apply blank_addr_free; auto using user_ident. reflexivity.
Qed.

Lemma pair_not_in_single r1 r2 o Y :
  dup_repl v = r1 ++ r2 -> r2 <> [] -> r2 ++ o <> dup_seg u w0 w ++ Y.
Proof.
  intros E Hr H. destruct r1 as [|x r1].
  - cbn [app] in E. subst r2. exact (single_not_pair _ _ H).
  - rewrite dup_repl_eq in E. cbn [app] in E. apply cons_eq in E as [_ E].
    assert (F : free_of 44%N (r1 ++ r2)).
    { rewrite <- E. apply (blank_addr_free v ".address)" [32%N]);
        auto using user_ident; reflexivity. }
    apply free_of_app in F as [_ F].
    destruct r2 as [|c r2]; [congruence|].
    rewrite dup_seg_app in H. cbn [app] in H. apply cons_eq in H as [-> _].
    unfold free_of in F. cbn [forallb] in F. rewrite N.eqb_refl in F.
    discriminate F.
Qed.
End Pair.

Lemma dup_rule_const v s n r :
  user v -> dup_rule v s = Some (n, r) -> r = dup_repl v.
Proof.
  intros Hv H.
  apply (dup_recognises v (user_ident v Hv)) in H as (m & rest & _ & _ & _ & E).
  exact E.
Qed.

Lemma dup_seg_nonempty u w0 w : dup_seg u w0 w <> [].
Proof. discriminate. Qed.

(** The pass for [u] leaves no duplicated pair of [u]. *)
Lemma pair_absent_after u w0 w t :
  user u -> spaces w0 -> spaces w -> In nl w ->
  occurs (dup_seg u w0 w) (scan (dup_rule u) t) = false.
Proof.
  intros Hu Hw0 Hw Hnl.
  apply (absent_scan (dup_rule u) (dup_repl u) (dup_seg u w0 w)).
  - apply dup_seg_nonempty.
  - intros s n r. apply dup_rule_const, Hu.
  - intros a d o Y. apply pair_end_not_single; assumption.
  - intros r1 r2 o Y. apply pair_not_in_single; assumption.
  - assert (H : forall p, prefix_of (dup_seg u w0 w) p = true ->
                exists n r, dup_rule u p = Some (S n, r)).
    { intros p [rest ->]%prefix_of_spec.
      rewrite dup_at_some by auto using user_ident. cbn [dup_seg length].
      eauto. }
    induction t as [|c t IH]; [exact I | split; auto].
Qed.

(** A pass for either identifier brings no duplicated pair into a text. *)
Lemma pair_absent_kept u v w0 w t :
  user u -> user v -> spaces w0 -> spaces w -> In nl w ->
  occurs (dup_seg u w0 w) t = false ->
  occurs (dup_seg u w0 w) (scan (dup_rule v) t) = false.
Proof.
  intros Hu Hv Hw0 Hw Hnl.
  apply (absent_kept (dup_rule v) (dup_repl v) (dup_seg u w0 w)).
  - apply dup_seg_nonempty.
  - intros s n r. apply dup_rule_const, Hv.
  - intros a d o Y. apply pair_end_not_single; assumption.
  - intros r1 r2 o Y. apply pair_not_in_single; assumption.
Qed.

Lemma pair_absent_dedup u w0 w t :
  user u -> spaces w0 -> spaces w -> In nl w ->
  occurs (dup_seg u w0 w) (dedup t) = false.
Proof.
  intros Hu Hw0 Hw Hnl. rewrite dedup_eq. destruct Hu as [-> | ->].
  - apply pair_absent_kept; auto using user1, user2.
    apply pair_absent_after; auto using user1.
  - apply pair_absent_after; auto using user2.
Qed.

(** After the four substitutions none of the three literals is left to
    replace. *)
Lemma literals_dedup t : literals (dedup t) = dedup t.
Proof.
  assert (H : occurs (dup_seg "user1" [32%N] (nl :: str "        ")) (dedup t)
              = false).
  { apply pair_absent_dedup; [apply user1 | reflexivity | reflexivity |].
    left. reflexivity. }
  assert (K : forall X,
            occurs (X ++ dup_seg "user1" [32%N] (nl :: str "        "))
              (dedup t) = false).
  { intros X.
    destruct (occurs (X ++ _) (dedup t)) eqn:E; [|reflexivity].
    apply occurs_app_l in E. congruence. }
  unfold literals.
  rewrite (replace_id bad1 good1)
    by exact (K (str "pool.connect(user1).addLiquidity(0, LIQUIDITY_AMOUNT, 0, 0, deadline")).
  rewrite (replace_id bad2 good2)
    by exact (K (str "removeLiquidity(lpBalance, 0, 0, pastDeadline")).
  apply (replace_id bad3 good3).
  exact (K (str "removeLiquidity(lpBalance + 1n, 0, 0, deadline")).
Qed.
End DedupFacts.

(* ===================================================================== *)
(** ** Passes that shorten the text *)

Section Shrinks.
Variable f : rule.
Hypothesis Hb : bounded f.
Hypothesis Hs : forall s n r, f s = Some (n, r) -> length r < n.

Lemma scan_from_shorter s : forall k,
  k <= length s -> length (scan_from f k s) + k <= length s.
Proof.
  induction s as [|c s IH]; intros k Hk; cbn [length] in *.
  - cbn. lia.
  - cbn [scan_from]. destruct k as [|k].
    + destruct (f (c :: s)) as [[[|n] r]|] eqn:E.
      * cbn [length]. specialize (IH 0). lia.
      * pose proof (Hb _ _ _ E) as B. pose proof (Hs _ _ _ E) as S.
        cbn [length] in B. rewrite length_app. specialize (IH n). lia.
      * cbn [length]. specialize (IH 0). lia.
    + specialize (IH k). lia.
Qed.

Lemma scan_same_length s : length (scan f s) = length s -> scan f s = s.
Proof.
  unfold scan. induction s as [|c s IH]; [reflexivity|].
  cbn [scan_from]. destruct (f (c :: s)) as [[[|n] r]|] eqn:E.
  - cbn [length]. intros H. f_equal. apply IH. lia.
  - pose proof (Hb _ _ _ E) as B. pose proof (Hs _ _ _ E) as S.
    cbn [length] in B. rewrite length_app. cbn [length].
    pose proof (scan_from_shorter s n). lia.
  - cbn [length]. intros H. f_equal. apply IH. lia.
Qed.

Lemma scan_shrinking : shrinking (scan f).
Proof.
  intros t. split; [|apply scan_same_length].
  pose proof (scan_from_shorter t 0). unfold scan. lia.
Qed.
End Shrinks.

Lemma shrinking_compose g h :
  shrinking g -> shrinking h -> shrinking (fun t => h (g t)).
Proof.
  intros Hg Hh t. destruct (Hg t) as [G1 G2], (Hh (g t)) as [H1 H2].
  split; [lia|]. intros E.
  assert (length (g t) = length t) by lia.
  rewrite H2 by lia. auto.
Qed.

(** A shrinking function comes to rest within as many rounds as the text
    has characters. *)
Lemma shrinking_settles g :
  shrinking g ->
  forall t, exists k, k <= length t
                      /\ Nat.iter (S k) g t = Nat.iter k g t.
Proof.
  intros Hg t. remember (length t) as n eqn:Hn. revert t Hn.
  induction n as [n IH] using lt_wf_ind. intros t ->.
  destruct (Hg t) as [G1 G2].
  destruct (decide (length (g t) = length t)) as [E|E].
  - exists 0. split; [lia|]. cbn. exact (G2 E).
  - destruct (IH (length (g t)) ltac:(lia) (g t) eq_refl) as (k & Hk & Ek).
    exists (S k). split; [lia|].
    rewrite !Nat.iter_succ_r in *. exact Ek.
Qed.

Module CleanupLength.
Import Re ReFacts Cleanup CleanupFacts DedupFacts.

Lemma tail_shortens u s n r :
  user u -> tail_rule u s = Some (n, r) -> length r < n.
Proof.
  intros Hu H.
  apply (tail_recognises u (user_ident u Hu)) in H
    as (m & rest & _ & (w & -> & _) & -> & ->).
  unfold tail_seg. cbn [length]. rewrite !length_app.
  vm_compute (length tail_repl). vm_compute (length (str ".address);")). lia.
Qed.

Lemma dup_shortens u s n r :
  user u -> dup_rule u s = Some (n, r) -> length r < n.
Proof.
  intros Hu H.
  apply (dup_recognises u (user_ident u Hu)) in H
    as (m & rest & _ & (w0 & w & -> & _) & -> & ->).
  unfold dup_seg, dup_repl. cbn [length]. rewrite !length_app.
  vm_compute (length (str ".address,")). vm_compute (length (str ".address)")).
  vm_compute (length (str ", ")). lia.
Qed.

Lemma replace_shortens old new s n r :
  length new < length old -> replace_rule old new s = Some (n, r) ->
  length r < n.
Proof.
  intros Hl H. unfold replace_rule in H.
  destruct (prefix_of old s); [|discriminate]. injection H as <- <-. exact Hl.
Qed.

Lemma tail_pass_shrinking u : user u -> shrinking (scan (tail_rule u)).
Proof.
  intros Hu. apply scan_shrinking.
  - apply (recognises_bounded _ _ _ (tail_recognises u (user_ident u Hu))).
  - intros s n r. apply tail_shortens, Hu.
Qed.

Lemma dup_pass_shrinking u : user u -> shrinking (scan (dup_rule u)).
Proof.
  intros Hu. apply scan_shrinking.
  - apply (recognises_bounded _ _ _ (dup_recognises u (user_ident u Hu))).
  - intros s n r. apply dup_shortens, Hu.
Qed.

Lemma replace_pass_shrinking old new :
  length new < length old -> shrinking (replace old new).
Proof.
  intros Hl. apply scan_shrinking.
  - apply replace_rule_bounded.
  - intros s n r. apply replace_shortens, Hl.
Qed.

Lemma cleanup_shrinking : shrinking cleanup.
Proof.
  unfold cleanup, literals, dedup. cbv zeta.
  apply (shrinking_compose
           (fun t => replace bad2 good2 (replace bad1 good1
              (re_sub (dup_pat "user2") (const_repl (dup_repl "user2"))
              (re_sub (dup_pat "user1") (const_repl (dup_repl "user1"))
              (re_sub (tail_pat "user2") (const_repl tail_repl)
              (re_sub (tail_pat "user1") (const_repl tail_repl) t))))))
           (replace bad3 good3));
    [|apply replace_pass_shrinking; vm_compute; lia].
  apply (shrinking_compose
           (fun t => replace bad1 good1
              (re_sub (dup_pat "user2") (const_repl (dup_repl "user2"))
              (re_sub (dup_pat "user1") (const_repl (dup_repl "user1"))
              (re_sub (tail_pat "user2") (const_repl tail_repl)
              (re_sub (tail_pat "user1") (const_repl tail_repl) t)))))
           (replace bad2 good2));
    [|apply replace_pass_shrinking; vm_compute; lia].
  apply (shrinking_compose
           (fun t =>
              (re_sub (dup_pat "user2") (const_repl (dup_repl "user2"))
              (re_sub (dup_pat "user1") (const_repl (dup_repl "user1"))
              (re_sub (tail_pat "user2") (const_repl tail_repl)
              (re_sub (tail_pat "user1") (const_repl tail_repl) t)))))
           (replace bad1 good1));
    [|apply replace_pass_shrinking; vm_compute; lia].
  apply (shrinking_compose
           (fun t => scan (dup_rule "user1") (scan (tail_rule "user2")
                       (scan (tail_rule "user1") t)))
           (scan (dup_rule "user2")));
    [|apply dup_pass_shrinking, user2].
  apply (shrinking_compose
           (fun t => scan (tail_rule "user2") (scan (tail_rule "user1") t))
           (scan (dup_rule "user1")));
    [|apply dup_pass_shrinking, user1].
  apply (shrinking_compose (scan (tail_rule "user1")) (scan (tail_rule "user2")));
    [apply tail_pass_shrinking, user1 | apply tail_pass_shrinking, user2].
Qed.

(** Every match of the four patterns holds a line break. *)
Lemma every_suffix_notin (c : char) t :
  ~ In c t -> every_suffix (fun p => ~ In c p) t.
Proof.
  induction t as [|x t IH]; [intros; exact I|].
  intros H. split; [exact H|]. apply IH. intros K. apply H. right. exact K.
Qed.

Lemma tail_needs_break u p :
  user u -> ~ In nl p -> tail_rule u p = None.
Proof.
  intros Hu Hp.
  apply (recognises_none _ _ _ (tail_recognises u (user_ident u Hu))).
  intros m rest (w & -> & _ & Hin) ->. apply Hp.
  apply in_or_app. left. right. apply in_or_app. left. exact Hin.
Qed.

Lemma dup_needs_break u p :
  user u -> ~ In nl p -> dup_rule u p = None.
Proof.
  intros Hu Hp.
  apply (recognises_none _ _ _ (dup_recognises u (user_ident u Hu))).
  intros m rest (w0 & w & -> & _ & _ & Hin) ->. apply Hp.
  apply in_or_app. left. right. rewrite !app_assoc.
  apply in_or_app. left. apply in_or_app. left. apply in_or_app. right.
  exact Hin.
Qed.

Lemma dedup_needs_break t : ~ In nl t -> dedup t = t.
Proof.
  intros H. rewrite dedup_eq. apply every_suffix_notin in H.
  rewrite (scan_id (tail_rule "user1") t)
    by (eapply every_suffix_impl; [|exact H];
        intros p Hp; apply tail_needs_break; auto using user1).
  rewrite (scan_id (tail_rule "user2") t)
    by (eapply every_suffix_impl; [|exact H];
        intros p Hp; apply tail_needs_break; auto using user2).
  rewrite (scan_id (dup_rule "user1") t)
    by (eapply every_suffix_impl; [|exact H];
        intros p Hp; apply dup_needs_break; auto using user1).
  apply scan_id. eapply every_suffix_impl; [|exact H].
  intros p Hp. apply dup_needs_break; auto using user2.
Qed.
End CleanupLength.

(* ===================================================================== *)
(** ** The matches of the insertion patterns *)

Module MatchFacts.
Import Re ReFacts FixTest CleanupFacts FixTestFacts.

Lemma exec_marks ns : forall ms i s r,
  exec ns ms i s = Some r -> mlang ns ms i s (caps r) (stop r).
Proof.
  induction ns as [|nd ns IH]; intros ms i s r H; cbn [exec] in H.
  - injection H as <-. cbn. auto.
  - destruct nd as [c|k|k|k|m]; cbn [mlang].
    + destruct s as [|x s]; [discriminate|].
      destruct (N.eqb_spec x c) as [->|]; [|discriminate]. eauto.
    + destruct s as [|x s]; [discriminate|].
      destruct (in_cls k x) eqn:Hx; [|discriminate]. eauto 6.
    + apply star_sound in H as (w & s' & -> & Hw & Hk). eauto 6.
    + destruct s as [|x s]; [discriminate|].
      destruct (in_cls k x) eqn:Hx; [|discriminate].
      apply star_sound in H as (w & s' & -> & Hw & Hk).
      exists (x :: w), s'. split; [reflexivity|]. split; [discriminate|].
      split; [cbn [forallb]; rewrite Hx; exact Hw|].
      cbn [length]. replace (i + S (length w)) with (S i + length w) by lia.
      eauto.
    + eauto.
Qed.

Lemma mlang_lits t ns ms s ms' j : forall i,
  mlang (map Lit t ++ ns) ms i s ms' j ->
  exists s', s = t ++ s' /\ mlang ns ms (i + length t) s' ms' j.
Proof.
  revert s. induction t as [|c t IH]; intros s i H; cbn [map app mlang] in H.
  - exists s. rewrite Nat.add_0_r. auto.
  - destruct H as (s1 & -> & H). apply IH in H as (s2 & -> & H).
    exists s2. split; [reflexivity|]. cbn [length].
    replace (i + S (length t)) with (S i + length t) by lia. exact H.
Qed.

(** Nodes without marks take a stretch of the text and leave the marks. *)
Lemma mlang_markless M K ms s ms' j : forall i,
  markless M = true -> mlang (M ++ K) ms i s ms' j ->
  exists x s', s = x ++ s' /\ mlang K ms (i + length x) s' ms' j.
Proof.
  revert s. induction M as [|nd M IH]; intros s i HM H.
  - exists [], s. rewrite Nat.add_0_r. auto.
  - cbn [markless forallb] in HM. apply andb_true_iff in HM as [Hnd HM].
    cbn [app mlang] in H. destruct nd as [c|k|k|k|m]; [| | | |discriminate].
    + destruct H as (s1 & -> & H). apply IH in H as (x & s' & -> & H); [|exact HM].
      exists (c :: x), s'. split; [reflexivity|]. cbn [length].
      replace (i + S (length x)) with (S i + length x) by lia. exact H.
    + destruct H as (c & s1 & -> & _ & H).
      apply IH in H as (x & s' & -> & H); [|exact HM].
      exists (c :: x), s'. split; [reflexivity|]. cbn [length].
      replace (i + S (length x)) with (S i + length x) by lia. exact H.
    + destruct H as (w & s1 & -> & _ & H).
      apply IH in H as (x & s' & -> & H); [|exact HM].
      exists (w ++ x), s'. split; [rewrite app_assoc; reflexivity|].
      rewrite length_app, Nat.add_assoc. exact H.
    + destruct H as (w & s1 & -> & _ & _ & H).
      apply IH in H as (x & s' & -> & H); [|exact HM].
      exists (w ++ x), s'. split; [rewrite app_assoc; reflexivity|].
      rewrite length_app, Nat.add_assoc. exact H.
Qed.

(** What a match of [pattern] or [pattern2] is made of.  [M] stands for the
    argument slots up to the end of group 1. *)
Lemma insertion_match method M s r :
  markless M = true ->
  match_here ([grp_open 1] ++ head method ++ M
              ++ [grp_close 1; grp_open 3; Star Space; Lit 41%N; grp_close 3])
             s = Some r ->
  exists u body w rest,
    user u /\ s = body ++ w ++ 41%N :: rest
    /\ prefix_of (receiver u method) body = true
    /\ spaces w
    /\ stop r = length body + length w + 1
    /\ caps r = [(5, stop r); (4, length body); (1, length body);
                 (3, 18); (2, 13); (0, 0)].
Proof.
  intros HM H. apply exec_marks in H.
  cbn [app mlang grp_open Nat.mul Nat.sub] in H.
  unfold head, lit in H. rewrite <- !app_assoc in H.
  apply mlang_lits in H as (s1 & -> & H).
  cbn [app mlang grp_open grp_close Nat.mul Nat.sub] in H.
  apply mlang_lits in H as (s2 & -> & H).
  cbn [app mlang grp_open grp_close Nat.mul Nat.sub] in H.
  destruct H as (d & s3 & -> & Hd & H).
  apply mlang_lits in H as (s4 & -> & H).
  apply mlang_markless in H as (x & s5 & -> & H); [|exact HM].
  cbn [mlang grp_open grp_close Nat.mul Nat.sub] in H.
  destruct H as (w & s6 & -> & Hw & rest & -> & E1 & E2).
  assert (Hu : exists u, user u /\ str u = str "user" ++ [d]).
  { change (existsb (N.eqb d) [49%N; 50%N] = true) in Hd. cbn [existsb] in Hd.
    apply orb_true_iff in Hd as [Hd|Hd].
    - apply N.eqb_eq in Hd as ->. exists "user1"%string.
      split; [left|]; reflexivity.
    - apply orb_true_iff in Hd as [Hd|Hd]; [|discriminate].
      apply N.eqb_eq in Hd as ->. exists "user2"%string.
      split; [right|]; reflexivity. }
  destruct Hu as (u & Hu & Eu).
  exists u, (receiver u method ++ x), w, rest.
  assert (L : length (receiver u method ++ x)
              = 0 + length (str "pool.connect(") + length (str "user") + 1
                + length (str (")." +:+ method +:+ "(")) + length x).
  { unfold receiver. rewrite Eu, !length_app. cbn [length]. lia. }
  split; [exact Hu|]. split.
  { unfold receiver. rewrite Eu, <- !app_assoc. reflexivity. }
  split; [apply prefix_of_app|]. split; [exact Hw|].
  unfold text, char in *. split.
  - rewrite E2, L. vm_compute (length (str "pool.connect(")).
    vm_compute (length (str "user")). lia.
  - rewrite E1, E2, L. vm_compute (length (str "pool.connect(")).
    vm_compute (length (str "user")). cbn [Nat.add Nat.sub].
    repeat (f_equal; try lia).
Qed.
End MatchFacts.

Module InsertFacts.
Import Re ReFacts FixTest CleanupFacts FixTestFacts MatchFacts.

(** The replacement of a match: the match with the address of its receiver
    put in before the closing white space and parenthesis. *)
Lemma insertion_replacement method M s r :
  markless M = true ->
  match_here ([grp_open 1] ++ head method ++ M
              ++ [grp_close 1; grp_open 3; Star Space; Lit 41%N; grp_close 3])
             s = Some r ->
  exists u body w rest,
    user u /\ s = body ++ w ++ 41%N :: rest
    /\ prefix_of (receiver u method) body = true
    /\ spaces w
    /\ stop r = length (body ++ w ++ [41%N])
    /\ replace_func r s = body ++ inserted u ++ w ++ [41%N].
Proof.
  intros HM H.
  destruct (insertion_match method M s r HM H)
    as (u & body & w & rest & Hu & -> & Hp & Hw & Hs & Hc).
  exists u, body, w, rest. split; [exact Hu|]. split; [reflexivity|].
  split; [exact Hp|]. split; [exact Hw|]. split.
  { rewrite Hs, !length_app. cbn [length]. lia. }
  unfold replace_func, group. rewrite Hc.
  cbn [mark_at Nat.mul Nat.add Nat.sub Nat.eqb]. rewrite Hs.
  assert (G2 : take 5 (drop 13 (body ++ w ++ 41%N :: rest)) = str u).
  { apply prefix_of_spec in Hp as [x ->]. unfold receiver.
    rewrite <- !app_assoc.
    rewrite (drop_app_length' (str "pool.connect(")) by reflexivity.
    apply take_app_length'. destruct Hu as [-> | ->]; reflexivity. }
  unfold text, char in *. rewrite G2.
  change (drop 0 (body ++ w ++ 41%N :: rest)) with (body ++ w ++ 41%N :: rest).
  rewrite Nat.sub_0_r, take_app_length, drop_app_length.
  replace (length body + length w + 1 - length body) with (length (w ++ [41%N]))
    by (rewrite length_app; cbn [length]; lia).
  change (w ++ 41%N :: rest) with (w ++ [41%N] ++ rest).
  rewrite (app_assoc w), take_app_length. unfold inserted.
  rewrite <- !app_assoc. reflexivity.
Qed.

Lemma pattern_eq :
  pattern = [grp_open 1] ++ head "addLiquidity"
            ++ (slot ++ slot ++ slot ++ slot ++ [Star Space; Plus (Except 41%N)])
            ++ [grp_close 1; grp_open 3; Star Space; Lit 41%N; grp_close 3].
Proof. reflexivity. Qed.

Lemma pattern2_eq :
  pattern2 = [grp_open 1] ++ head "removeLiquidity"
             ++ (slot ++ slot ++ slot ++ [Star Space; Plus (Except 41%N)])
             ++ [grp_close 1; grp_open 3; Star Space; Lit 41%N; grp_close 3].
Proof. reflexivity. Qed.

Section OnlyInserts.
Variable f : rule.
Hypothesis Hf : forall s n r, f s = Some (n, r) -> sublist (take n s) r.

Lemma scan_from_sublist s : forall k, sublist (drop k s) (scan_from f k s).
Proof.
  induction s as [|c s IH]; intros k.
  - destruct k; constructor.
  - cbn [scan_from]. destruct k as [|k]; [|apply IH].
    destruct (f (c :: s)) as [[[|n] r]|] eqn:E.
    + apply sublist_skip, (IH 0).
    + change (drop 0 (c :: s)) with (c :: s).
      rewrite <- (take_drop (S n) (c :: s)).
      apply sublist_app; [exact (Hf _ _ _ E) | exact (IH n)].
    + apply sublist_skip, (IH 0).
Qed.

Lemma scan_sublist s : sublist s (scan f s).
Proof. exact (scan_from_sublist s 0). Qed.
End OnlyInserts.

Lemma insertion_sublist method M s n r :
  markless M = true ->
  re_rule ([grp_open 1] ++ head method ++ M
           ++ [grp_close 1; grp_open 3; Star Space; Lit 41%N; grp_close 3])
          replace_func s = Some (n, r) ->
  sublist (take n s) r.
Proof.
  intros HM H. unfold re_rule in H.
  destruct (match_here _ s) as [m|] eqn:E; [|discriminate].
  injection H as <- <-.
  destruct (insertion_replacement method M s m HM E)
    as (u & body & w & rest & _ & -> & _ & _ & -> & ->).
  change (w ++ 41%N :: rest) with (w ++ [41%N] ++ rest).
  rewrite !app_assoc, take_app_length, <- !app_assoc.
  apply sublist_app; [reflexivity|]. apply sublist_inserts_l. reflexivity.
Qed.

Lemma fix_test_sublist t : sublist t (fix_test t).
Proof.
  unfold fix_test, re_sub. etransitivity.
  - apply (scan_sublist (re_rule pattern replace_func)).
    intros s n r. rewrite pattern_eq. apply insertion_sublist. reflexivity.
  - apply (scan_sublist (re_rule pattern2 replace_func)).
    intros s n r. rewrite pattern2_eq. apply insertion_sublist. reflexivity.
Qed.

(** The substitution of line 18 at the first receiver of a text. *)
Lemma first_call_rewritten (u : string) (a1 a2 a3 a4 a5 pre post : text) :
  user u ->
  is_slot a1 = true -> is_slot a2 = true -> is_slot a3 = true ->
  is_slot a4 = true -> is_slot a5 = true ->
  let body := open_call u a1 a2 a3 a4 a5 in
  begins_in (receiver "user1" "addLiquidity") pre (body ++ str ")" ++ post)
  = false ->
  begins_in (receiver "user2" "addLiquidity") pre (body ++ str ")" ++ post)
  = false ->
  re_sub pattern replace_func (pre ++ body ++ str ")" ++ post)
  = pre ++ (body ++ str "," ++ [nl] ++ str "        " ++ str u
            ++ str ".address" ++ str ")")
    ++ re_sub pattern replace_func post.
Proof.
  intros Hu S1 S2 S3 S4 S5 body B1 B2. unfold re_sub.
  pose proof (pattern_on_call u a1 a2 a3 a4 a5 post Hu S1 S2 S3 S4 S5) as Hc.
  cbv zeta in Hc. fold body in Hc.
  change (str ")" ++ post) with (41%N :: post) in *.
  rewrite scan_skip.
  - f_equal. rewrite (scan_hit _ _ _ _ Hc); [|lia|].
    + assert (D : drop (S (length body)) (body ++ 41%N :: post) = post).
      { rewrite <- (Nat.add_1_r (length body)), <- drop_drop, drop_app_length.
        reflexivity. }
      rewrite D. unfold inserted. rewrite <- !app_assoc. reflexivity.
    + unfold body, open_call, receiver. intros E.
      apply (f_equal length) in E. rewrite !length_app in E.
      vm_compute (length (str "pool.connect(")) in E. cbn [length] in E. lia.
  - apply ReFacts.re_rule_bounded.
  - apply begins_in_suffixes in B1, B2.
    pose proof (every_suffix_and _ _ _ B1 B2) as B.
    eapply every_suffix_impl; [|exact B].
    intros s [H1 H2]. apply pattern_rule_none; assumption.
Qed.

Lemma begins_in_app h a b X :
  begins_in h (a ++ b) X = begins_in h a (b ++ X) || begins_in h b X.
Proof.
  induction a as [|c a IH]; [reflexivity|].
  cbn [app begins_in]. rewrite IH, <- app_assoc, orb_assoc. reflexivity.
Qed.

(** No receiver text begins inside the inserted argument. *)
Lemma inserted_no_receiver u v method X :
  user u ->
  begins_in (receiver v method) (inserted u ++ str ")") X = false.
Proof.
  intros [-> | ->]; unfold receiver; vm_compute; reflexivity.
Qed.
End InsertFacts.

(* ===================================================================== *)
(** ** Passes that end their matches at a closing parenthesis *)

Module CloseFacts.
Import Re ReFacts Cleanup CleanupFacts DedupFacts CleanupLength.

Section Closing.
Variables (f : rule) (Seg : text -> Prop) (R : text) (semi : bool).
Hypothesis Hf : recognises f Seg R.
Hypothesis Hled : comma_led f.
(** The only closing parenthesis of a segment is the one it ends with. *)
Hypothesis Hseg : forall m, Seg m ->
  exists m0, free_of 41%N m0 /\ m = m0 ++ closing semi.
Hypothesis HR : exists z, R = z ++ closing semi.

(** No match reaches across a [);]. *)
Lemma close_local s Q :
  f ((s ++ [41%N; 59%N]) ++ Q) = f (s ++ [41%N; 59%N]).
Proof.
  apply (recognises_local f Seg R Hf). intros m rest Hm E.
  destruct (Hseg m Hm) as (m0 & Hfree & ->).
  rewrite <- !app_assoc in E. cbn [app] in E.
  unfold closing in *.
  destruct (first_cut 41%N m0 s (59%N :: Q)
              ((if semi then [59%N] else []) ++ rest) Hfree E)
    as [[-> E'] | (q & -> & E')].
  - destruct semi; cbn [app] in *.
    + exists []. rewrite app_nil_r. reflexivity.
    + exists [59%N]. rewrite <- app_assoc. reflexivity.
  - destruct semi; cbn [app] in *.
    + destruct q as [|c q]; cbn [app] in E'; [discriminate E'|].
      injection E' as <- _.
      exists (q ++ [41%N; 59%N]). rewrite <- !app_assoc. reflexivity.
    + exists (q ++ [41%N; 59%N]). rewrite <- !app_assoc. reflexivity.
Qed.

Lemma scan_after_close P Q :
  scan f (P ++ [41%N; 59%N] ++ Q) = scan f (P ++ [41%N; 59%N]) ++ scan f Q.
Proof.
  rewrite app_assoc. apply scan_app; [exact (recognises_bounded f Seg R Hf)|].
  apply every_suffix_app.
  - induction P as [|c P IH]; [exact I|]. split; [|exact IH].
    apply close_local.
  - cbn [every_suffix app]. rewrite !Hled by discriminate. auto.
Qed.

(** The [);] at the end of a text is still there after the pass. *)
Lemma scan_keeps_close : forall n P, length P <= n ->
  exists Z, scan f (P ++ [41%N; 59%N]) = Z ++ [41%N; 59%N].
Proof.
  induction n as [|n IH]; intros P Hn.
  - destruct P; [|cbn in Hn; lia]. exists []. cbn [app].
    rewrite !scan_miss by (apply Hled; discriminate). reflexivity.
  - destruct P as [|c P].
    { exists []. cbn [app].
      rewrite !scan_miss by (apply Hled; discriminate). reflexivity. }
    destruct (f ((c :: P) ++ [41%N; 59%N])) as [[k r]|] eqn:E.
    + pose proof E as E0.
      apply Hf in E as (m & rest & Es & Hm & -> & ->).
      destruct (Hseg m Hm) as (m0 & Hfree & Em).
      destruct HR as [z Ez].
      assert (Hpos : 0 < length m).
      { rewrite Em, length_app. unfold closing. cbn [length]. lia. }
      rewrite (scan_hit f _ _ _ E0 Hpos) by discriminate.
      rewrite Es, drop_app_length.
      rewrite Em in Es. unfold closing in *. rewrite <- app_assoc in Es.
      cbn [app] in Es.
      destruct (first_cut 41%N m0 (c :: P) [59%N]
                  ((if semi then [59%N] else []) ++ rest) Hfree Es)
        as [[_ E'] | (q & Eq & E')].
      * destruct semi; cbn [app] in E'.
        -- injection E' as <-. exists z. rewrite Ez.
           unfold scan. cbn [scan_from]. rewrite app_nil_r. reflexivity.
        -- subst rest. exists z. rewrite Ez.
           rewrite scan_miss by (apply Hled; discriminate).
           unfold scan at 1. cbn [scan_from]. rewrite <- app_assoc. reflexivity.
      * assert (Hq : length q <= n).
        { apply (f_equal length) in Eq. rewrite length_app in Eq.
          cbn [length] in Eq, Hn. unfold text, char in *. lia. }
        destruct semi; cbn [app] in E'.
        -- destruct q as [|x q]; cbn [app] in E'; [discriminate E'|].
           injection E' as _ ->.
           destruct (IH q) as [Z HZ];
             [cbn [length] in Hq; unfold text, char in *; lia|].
           exists (R ++ Z). unfold text, char in *.
           rewrite HZ, <- app_assoc. reflexivity.
        -- subst rest. destruct (IH q Hq) as [Z HZ].
           exists (R ++ Z). unfold text, char in *.
           rewrite HZ, <- app_assoc. reflexivity.
    + destruct (IH P) as [Z HZ]; [cbn [length] in Hn; lia|].
      exists (c :: Z). cbn [app] in *.
      etransitivity; [apply scan_miss; exact E|]. f_equal. exact HZ.
Qed.

(** The pass on a text cut behind a [);]: the front keeps its [);], and the
    rest is rewritten on its own. *)
Lemma pass_close P :
  exists Z, scan f (P ++ [41%N; 59%N]) = Z ++ [41%N; 59%N]
            /\ forall Q, scan f (P ++ [41%N; 59%N] ++ Q)
                         = Z ++ [41%N; 59%N] ++ scan f Q.
Proof.
  destruct (scan_keeps_close (length P) P (le_n _)) as [Z HZ].
  exists Z. split; [exact HZ|]. intros Q.
  rewrite scan_after_close, HZ, <- app_assoc. reflexivity.
Qed.
End Closing.

Lemma tail_pass_close u P :
  user u ->
  exists Z, scan (tail_rule u) (P ++ [41%N; 59%N]) = Z ++ [41%N; 59%N]
            /\ forall Q, scan (tail_rule u) (P ++ [41%N; 59%N] ++ Q)
                         = Z ++ [41%N; 59%N] ++ scan (tail_rule u) Q.
Proof.
  intros Hu.
  apply (pass_close (tail_rule u) (is_tail u) tail_repl true
           (tail_recognises u (user_ident u Hu)) (tail_comma_led u)).
  - intros m (w & -> & Hw & _).
    exists (44%N :: w ++ str u ++ str ".address"). split.
    + change (44%N :: w ++ str u ++ str ".address")
        with ([44%N] ++ w ++ str u ++ str ".address").
      apply free_of_app. split; [reflexivity|].
      apply free_of_app. split; [apply spaces_free; [reflexivity | exact Hw]|].
      destruct Hu as [-> | ->]; reflexivity.
    + unfold tail_seg, closing. cbn [app]. f_equal.
      rewrite <- !app_assoc. reflexivity.
  - exists []. reflexivity.
Qed.

Lemma dup_pass_close u P :
  user u ->
  exists Z, scan (dup_rule u) (P ++ [41%N; 59%N]) = Z ++ [41%N; 59%N]
            /\ forall Q, scan (dup_rule u) (P ++ [41%N; 59%N] ++ Q)
                         = Z ++ [41%N; 59%N] ++ scan (dup_rule u) Q.
Proof.
  intros Hu.
  apply (pass_close (dup_rule u) (is_dup u) (dup_repl u) false
           (dup_recognises u (user_ident u Hu)) (dup_comma_led u)).
  - intros m (w0 & w & -> & Hw0 & Hw & _).
    exists (44%N :: w0 ++ str u ++ str ".address," ++ w ++ str u
            ++ str ".address"). split.
    + change (44%N :: w0 ++ str u ++ str ".address," ++ w ++ str u
              ++ str ".address")
        with ([44%N] ++ w0 ++ str u ++ str ".address," ++ w ++ str u
              ++ str ".address").
      apply free_of_app. split; [reflexivity|].
      apply free_of_app. split; [apply spaces_free; [reflexivity | exact Hw0]|].
      rewrite app_assoc. apply free_of_app.
      split; [destruct Hu as [-> | ->]; reflexivity|].
      apply free_of_app. split; [apply spaces_free; [reflexivity | exact Hw]|].
      destruct Hu as [-> | ->]; reflexivity.
    + unfold dup_seg, closing. cbn [app]. f_equal.
      rewrite <- !app_assoc. reflexivity.
  - exists (str ", " ++ str u ++ str ".address"). unfold dup_repl, closing.
    rewrite <- !app_assoc. reflexivity.
Qed.

(** The substitution of line 7 or 8 at a last argument that stands behind a
    line break. *)
Lemma tail_deletes u w pre post :
  user u -> spaces w -> In nl w ->
  scan (tail_rule u) (pre ++ tail_seg u w ++ post)
  = scan (tail_rule u) pre ++ [41%N; 59%N] ++ scan (tail_rule u) post.
Proof.
  intros Hu Hw Hnl. pose proof (user_ident u Hu) as Iu.
  apply (scan_fire (tail_rule u)).
  - apply (recognises_bounded _ _ _ (tail_recognises u Iu)).
  - discriminate.
  - rewrite tail_seg_app. apply tail_barrier, Iu.
  - apply tail_at_some; assumption.
Qed.

(** Line 7 leaves the argument of the other identifier to line 8. *)
Lemma tail_other w pre post :
  spaces w ->
  scan (tail_rule "user1") (pre ++ tail_seg "user2" w ++ post)
  = scan (tail_rule "user1") pre ++ tail_seg "user2" w
    ++ scan (tail_rule "user1") post.
Proof.
  intros Hw. pose proof (user_ident "user1" user1) as Iu.
  apply (scan_inert (tail_rule "user1")).
  - apply (recognises_bounded _ _ _ (tail_recognises "user1" Iu)).
  - rewrite tail_seg_app. apply tail_barrier, Iu.
  - unfold tail_seg.
    apply (inert1 (tail_rule "user1") (w ++ str "user2" ++ str ".address);")).
    + apply tail_comma_led.
    + apply free_of_app. split; [apply spaces_free; [reflexivity | exact Hw]|].
      reflexivity.
    + rewrite <- !app_assoc. apply tail_at_none; [exact Iu | exact Hw | |].
      * reflexivity.
      * intros _. reflexivity.
Qed.

(** A pass that needs a line break copies a text without one. *)
Lemma close_kept (f : rule) P Z :
  (forall p, ~ In nl p -> f p = None) -> ~ In nl P ->
  scan f (P ++ [41%N; 59%N]) = Z ++ [41%N; 59%N] -> Z = P.
Proof.
  intros Hf HP E. rewrite scan_id in E.
  - apply app_inv_tail in E. congruence.
  - eapply every_suffix_impl; [intros p; apply Hf|].
    apply every_suffix_notin. intros [K | [K | [K | []]]]%in_app_or;
      [exact (HP K) | discriminate K | discriminate K].
Qed.

Lemma pass_kept (f : rule) P :
  (forall p, ~ In nl p -> f p = None) -> ~ In nl P -> scan f P = P.
Proof.
  intros Hf HP. apply scan_id. eapply every_suffix_impl; [intros p; apply Hf|].
  apply every_suffix_notin, HP.
Qed.

(** A comma and the rest of its line, when no line break follows: no match
    begins there. *)
Lemma line_kept (f : rule) P l :
  bounded f -> (forall p, ~ In nl p -> f p = None) ->
  every_suffix (fun p => f (p ++ 44%N :: l) = f p) P -> ~ In nl l ->
  scan f (P ++ 44%N :: l) = scan f P ++ 44%N :: l.
Proof.
  intros Hb Hf HP Hl. rewrite (scan_app f P (44%N :: l) Hb HP). f_equal.
  apply scan_id. eapply every_suffix_impl; [exact Hf|].
  apply every_suffix_notin. intros [K | K]; [discriminate K | exact (Hl K)].
Qed.

Lemma tail_line_kept u P l :
  user u -> ~ In nl l ->
  scan (tail_rule u) (P ++ 44%N :: l) = scan (tail_rule u) P ++ 44%N :: l.
Proof.
  intros Hu Hl. pose proof (user_ident u Hu) as Iu. apply line_kept.
  - apply (recognises_bounded _ _ _ (tail_recognises u Iu)).
  - intros p. apply tail_needs_break, Hu.
  - apply tail_barrier, Iu.
  - exact Hl.
Qed.

Lemma dup_line_kept u P l :
  user u -> ~ In nl l ->
  scan (dup_rule u) (P ++ 44%N :: l) = scan (dup_rule u) P ++ 44%N :: l.
Proof.
  intros Hu Hl. pose proof (user_ident u Hu) as Iu. apply line_kept.
  - apply (recognises_bounded _ _ _ (dup_recognises u Iu)).
  - intros p. apply dup_needs_break, Hu.
  - apply dup_barrier; [exact Iu|]. intros w rest _ Hin E. apply Hl.
    rewrite E. apply in_or_app. left. exact Hin.
  - exact Hl.
Qed.

Lemma not_in_close l : ~ In nl l -> ~ In nl (l ++ [41%N; 59%N]).
Proof.
  intros Hl [K | [K | [K | []]]]%in_app_or;
    [exact (Hl K) | discriminate K | discriminate K].
Qed.

Lemma tail_line_close u P l Z :
  user u -> ~ In nl l ->
  scan (tail_rule u) ((P ++ 44%N :: l) ++ [41%N; 59%N]) = Z ++ [41%N; 59%N] ->
  Z = scan (tail_rule u) P ++ 44%N :: l.
Proof.
  intros Hu Hl E.
  pose proof (tail_line_kept u P (l ++ [41%N; 59%N]) Hu (not_in_close l Hl)) as K.
  apply (app_inv_tail [41%N; 59%N]). rewrite <- E, <- !app_assoc. exact K.
Qed.

Lemma dup_line_close u P l Z :
  user u -> ~ In nl l ->
  scan (dup_rule u) ((P ++ 44%N :: l) ++ [41%N; 59%N]) = Z ++ [41%N; 59%N] ->
  Z = scan (dup_rule u) P ++ 44%N :: l.
Proof.
  intros Hu Hl E.
  pose proof (dup_line_kept u P (l ++ [41%N; 59%N]) Hu (not_in_close l Hl)) as K.
  apply (app_inv_tail [41%N; 59%N]). rewrite <- E, <- !app_assoc. exact K.
Qed.

End CloseFacts.

Import DedupFacts CleanupLength MatchFacts InsertFacts CloseFacts.

(* ===================================================================== *)
(** ** The properties of the specification *)

(** C1 (idempotence of the normalizer) fails on the code.  On the
    five-argument call of the specification's own scenario, one run of the
    normalizer appends [user1.address]; a second run matches the corrected,
    six-argument call again, because the last slot [[^)]+] of the insertion
    pattern runs over commas, and appends the argument a second time:
    [normalize (normalize t)] differs from [normalize t]. *)
Theorem normalize_not_idempotent :
  let t := str "pool.connect(user1).addLiquidity(100, 200, 0, 0, deadline)" in
  normalize t
  = str "pool.connect(user1).addLiquidity(100, 200, 0, 0, deadline,"
    ++ [nl] ++ str "        user1.address)"
  /\ normalize (normalize t)
  = str "pool.connect(user1).addLiquidity(100, 200, 0, 0, deadline,"
    ++ [nl] ++ str "        user1.address,"
    ++ [nl] ++ str "        user1.address)"
  /\ normalize (normalize t) <> normalize t.
Proof.
  cbv zeta. split; [vm_compute; reflexivity|]. split; [vm_compute; reflexivity|].
  intros E. apply (f_equal length) in E. vm_compute in E. discriminate E.
Qed.

(** C2 (calls that already have the right number of arguments pass through
    unchanged) fails on the code.  A six-argument [addLiquidity] call and a
    five-argument [removeLiquidity] call are matched by the insertion
    patterns and get one more argument; and a correct call whose last
    argument stands alone on a continuation line before [);] loses it to the
    first substitution of [cleanup.py]. *)
Theorem correct_calls_rewritten :
  fix_test (str "pool.connect(user1).addLiquidity(a, b, c, d, e, user1.address)")
  = str "pool.connect(user1).addLiquidity(a, b, c, d, e, user1.address,"
    ++ [nl] ++ str "        user1.address)"
  /\ fix_test (str "pool.connect(user2).removeLiquidity(lp, 0, 0, deadline, user2.address)")
  = str "pool.connect(user2).removeLiquidity(lp, 0, 0, deadline, user2.address,"
    ++ [nl] ++ str "        user2.address)"
  /\ cleanup (str "pool.connect(user1).removeLiquidity(lp, 0, 0, deadline,"
              ++ [nl] ++ str "        user1.address);")
  = str "pool.connect(user1).removeLiquidity(lp, 0, 0, deadline);".
Proof. repeat split; vm_compute; reflexivity. Qed.

(** C3 (arity correction) fails on the code.  A five-slot [addLiquidity]
    call of [user1] that follows a shorter [addLiquidity] call of [user2] is
    not given [user1.address]: the slots [[^,]+] of the pattern run over [)]
    and [;], so the match that begins at the earlier call reaches to the end
    of the later one, and [fix_test.py] makes [user2.address] the sixth
    argument of the call of [user1]. *)
Theorem sixth_argument_of_earlier_receiver :
  fix_test
    (str "pool.connect(user2).addLiquidity(x); pool.connect(user1).addLiquidity(a, b, c, d, e)")
  = str "pool.connect(user2).addLiquidity(x); pool.connect(user1).addLiquidity(a, b, c, d, e,"
    ++ [nl] ++ str "        user2.address)".
Proof. vm_compute. reflexivity. Qed.

(** C4 (no slot of the insertion patterns can contain a comma, so a call
    with more commas than the arity does not match) fails on the code: the
    last slot is [[^)]+], and a call with seven arguments is matched as a
    whole, its group 1 reaching to the last argument. *)
Theorem last_slot_takes_commas :
  let s := str "pool.connect(user1).addLiquidity(a, b, c, d, e, f, g)" in
  exists r, match_here pattern s = Some r
            /\ stop r = length s
            /\ group 1 r s
               = str "pool.connect(user1).addLiquidity(a, b, c, d, e, f, g".
Proof.
  eexists. split; [vm_compute; reflexivity|]. split; vm_compute; reflexivity.
Qed.

(** C5 (duplicate collapse).  For either identifier [u], a call ending in
    [, u.address,], white space with a line break, and [u.address)] leaves
    the four substitutions of the duplicate-removal pass ending in
    [, u.address)], a single occurrence; the text before and the text behind
    are rewritten as they would be on their own. *)
Theorem duplicate_collapse (u : string) (w pre post : text) :
  user u -> spaces w -> In nl w ->
  dedup (pre ++ (str ", " ++ str u ++ str ".address," ++ w
                 ++ str u ++ str ".address)") ++ post)
  = dedup pre ++ (str ", " ++ str u ++ str ".address)") ++ dedup post.
Proof.
  intros Hu Hw Hnl. rewrite !dedup_eq, dup_seg_text.
  change (str ", " ++ str u ++ str ".address)") with (dup_repl u).
  destruct (tail_step "user1" u pre w post user1 Hu Hw Hnl) as [E|E];
    rewrite E; clear E.
  - destruct (tail_step "user2" u (scan (tail_rule "user1") pre) w
                (scan (tail_rule "user1") post) user2 Hu Hw Hnl) as [E|E];
      rewrite E; clear E.
    + destruct Hu as [-> | ->].
      * rewrite (dup_fires "user1") by auto using user1.
        rewrite (dup_keeps_single "user2" "user1") by auto using user1, user2.
        reflexivity.
      * rewrite (dup_keeps_pair "user1" "user2")
          by (auto using user1, user2; discriminate).
        rewrite (dup_fires "user2") by auto using user2.
        reflexivity.
    + rewrite (dup_keeps_single "user1" u) by auto using user1.
      rewrite (dup_keeps_single "user2" u) by auto using user2.
      reflexivity.
  - rewrite (tail_keeps_single "user2" u) by auto using user2.
    rewrite (dup_keeps_single "user1" u) by auto using user1.
    rewrite (dup_keeps_single "user2" u) by auto using user2.
    reflexivity.
Qed.

(** C5 at the second scenario of the specification, for [user2]. *)
Lemma duplicate_collapse_witness :
  dedup (str "removeLiquidity(lpBalance, 0, 0, pastDeadline"
         ++ (str ", " ++ str "user2" ++ str ".address,"
             ++ ([nl] ++ str "        ") ++ str "user2" ++ str ".address)")
         ++ str ";")
  = dedup (str "removeLiquidity(lpBalance, 0, 0, pastDeadline")
    ++ (str ", " ++ str "user2" ++ str ".address)") ++ dedup (str ";").
Proof.
  apply (duplicate_collapse "user2" ([nl] ++ str "        ")).
  - right. reflexivity.
  - reflexivity.
  - left. reflexivity.
Defined.

(** C6 (literal substitution exactness).  The literal-replacement pass
    replaces each of the three known-bad literals, wherever it stands, by its
    known-good counterpart and rewrites the text before and behind it as it
    would on their own; a text in which none of the three occurs is returned
    unchanged. *)
Theorem literal_substitution_exact :
  (forall pre post,
     literals (pre ++ bad1 ++ post) = literals pre ++ good1 ++ literals post)
  /\ (forall pre post,
     literals (pre ++ bad2 ++ post) = literals pre ++ good2 ++ literals post)
  /\ (forall pre post,
     literals (pre ++ bad3 ++ post) = literals pre ++ good3 ++ literals post)
  /\ (forall t,
     occurs bad1 t = false -> occurs bad2 t = false -> occurs bad3 t = false ->
     literals t = t).
Proof.
  unfold literals. repeat split.
  - intros pre post.
    rewrite (replace_fires bad1 good1)
      by (vm_compute; first [discriminate | reflexivity]).
    rewrite (replace_inert bad2 good2 good1) by (vm_compute; reflexivity).
    rewrite (replace_inert bad3 good3 good1) by (vm_compute; reflexivity).
    reflexivity.
  - intros pre post.
    rewrite (replace_inert bad1 good1 bad2) by (vm_compute; reflexivity).
    rewrite (replace_fires bad2 good2)
      by (vm_compute; first [discriminate | reflexivity]).
    rewrite (replace_inert bad3 good3 good2) by (vm_compute; reflexivity).
    reflexivity.
  - intros pre post.
    rewrite (replace_inert bad1 good1 bad3) by (vm_compute; reflexivity).
    rewrite (replace_inert bad2 good2 bad3) by (vm_compute; reflexivity).
    rewrite (replace_fires bad3 good3)
      by (vm_compute; first [discriminate | reflexivity]).
    reflexivity.
  - intros t H1 H2 H3. rewrite (replace_id bad1 good1 t H1).
    rewrite (replace_id bad2 good2 t H2). apply replace_id, H3.
Qed.

(** C7 (non-interference).  [survive passes t i] follows the character at
    index [i] of the input through the nine passes and is defined exactly
    when no match of any pass covers it.  Every stretch of such characters
    stands byte for byte in the output, at the place the first of them
    lands; and the characters outside all matches keep their order. *)
Theorem text_outside_matches_unchanged (t : text) :
  (forall i n j,
     (forall k, k < n -> is_Some (survive passes t (i + k))) ->
     survive passes t i = Some j ->
     firstn n (skipn j (normalize t)) = firstn n (skipn i t))
  /\ (forall i i' j j',
     survive passes t i = Some j -> survive passes t i' = Some j' ->
     i < i' -> j < j').
Proof.
  rewrite normalize_passes. split.
  - intros i n. revert i. induction n as [|n IH]; intros i j Hall Hi.
    + reflexivity.
    + destruct (survive_char _ _ _ _ Hi) as [Hc Hlt].
      destruct (t !! i) as [c|] eqn:Ec; [|apply lookup_ge_None in Ec; lia].
      rewrite (drop_S _ c j) by exact Hc. rewrite (drop_S _ c i) by exact Ec.
      cbn [take]. f_equal. destruct n as [|n]; [reflexivity|].
      destruct (Hall 1 ltac:(lia)) as [j' Hj'].
      replace (i + 1) with (S i) in Hj' by lia.
      rewrite <- (survive_next _ _ _ _ _ Hi Hj'). apply IH; [|exact Hj'].
      intros k Hk. replace (S i + k) with (i + S k) by lia. apply Hall. lia.
  - intros i i' j j'. apply survive_mono.
Qed.

(** C7 on a text with one match: the five characters behind the rewritten
    call move from index 21 to index 5. *)
Lemma text_outside_matches_unchanged_witness :
  let t := str "f(x," ++ [nl] ++ str " user1.address); g(y)" in
  firstn 5 (skipn 5 (normalize t)) = firstn 5 (skipn 21 t).
Proof.
  cbv zeta.
  apply (proj1 (text_outside_matches_unchanged
                  (str "f(x," ++ [nl] ++ str " user1.address); g(y)"))).
  - intros k Hk.
    do 5 (destruct k as [|k]; [vm_compute; eexists; reflexivity|]). lia.
  - vm_compute. reflexivity.
Defined.



(** C10 (the insertion pass modifies calls on [pool.connect(user1)] and
    [pool.connect(user2)] only) fails on the code: an [addLiquidity] call on
    [pool.connect(owner)] that follows a shorter call on
    [pool.connect(user1)] lies inside the match that began at the earlier
    call, because the slots [[^,]+] run over [)] and [;], and [fix_test.py]
    gives it the argument [user1.address]. *)
Lemma other_receiver_modified :
  fix_test (str "pool.connect(user1).addLiquidity(x); pool.connect(owner).addLiquidity(a, b, c, d, e)")
  = str "pool.connect(user1).addLiquidity(x); pool.connect(owner).addLiquidity(a, b, c, d, e,"
    ++ [nl] ++ str "        user1.address)".
Proof. vm_compute. reflexivity. Qed.

(* ===================================================================== *)
(** ** Further properties of the two scripts *)

(** X1.  The three [str.replace] calls of [cleanup.py] never change
    anything: all three literals end in
    [, user1.address,<line break><8 blanks>user1.address)], and no text that
    has gone through the four [re.sub] calls holds that.  The script does
    what its first four substitutions do. *)
Theorem literal_pass_never_fires (t : text) : cleanup t = dedup t.
Proof. apply literals_dedup. Qed.

(** X2.  After [cleanup.py] has run, no duplicated address is left: for
    either identifier [u], the output holds no [,], white space,
    [u.address,], white space with a line break, [u.address)]. *)
Theorem no_duplicate_after_cleanup (u : string) (w0 w t : text) :
  user u -> spaces w0 -> spaces w -> In nl w ->
  occurs (str "," ++ w0 ++ str u ++ str ".address," ++ w
          ++ str u ++ str ".address)")
         (cleanup t)
  = false.
Proof.
  intros Hu Hw0 Hw Hnl. unfold cleanup. rewrite literals_dedup.
  apply (pair_absent_dedup u w0 w t); assumption.
Qed.

(** X2 on a text with two duplicated arguments in a row. *)
Lemma no_duplicate_after_cleanup_witness :
  occurs (str "," ++ str " " ++ str "user2" ++ str ".address,"
          ++ ([nl] ++ str "  ") ++ str "user2" ++ str ".address)")
         (cleanup (str "f(a, user2.address," ++ [nl] ++ str "  user2.address,"
                   ++ [nl] ++ str "  user2.address)"))
  = false.
Proof.
  apply (no_duplicate_after_cleanup "user2" (str " ") ([nl] ++ str "  ")).
  - right. reflexivity.
  - reflexivity.
  - reflexivity.
  - left. reflexivity.
Defined.

(** X3.  [cleanup.py] never makes the text longer, and changes it only by
    making it strictly shorter: every replacement is shorter than what it
    replaces. *)
Theorem cleanup_never_grows (t : text) :
  length (cleanup t) <= length t
  /\ (cleanup t = t \/ length (cleanup t) < length t).
Proof.
  destruct (cleanup_shrinking t) as [H1 H2]. split; [exact H1|].
  destruct (decide (length (cleanup t) = length t)); [left; auto | right; lia].
Qed.

(** X4.  Running [cleanup.py] again and again comes to rest: within as many
    runs as the text has characters, a further run changes nothing. *)
Theorem cleanup_settles (t : text) :
  exists k, k <= length t
            /\ Nat.iter (S k) cleanup t = Nat.iter k cleanup t.
Proof. apply shrinking_settles, cleanup_shrinking. Qed.

(** X5.  [cleanup.py] changes nothing in a text without a line break: each
    of its patterns and literals has [\n] in it. *)
Theorem cleanup_needs_line_break (t : text) : ~ In nl t -> cleanup t = t.
Proof.
  intros H. unfold cleanup. rewrite literals_dedup.
  apply dedup_needs_break, H.
Qed.

(** X5 on a one-line call that ends like a duplicate. *)
Lemma cleanup_needs_line_break_witness :
  cleanup (str "f(a, user1.address, user1.address);")
  = str "f(a, user1.address, user1.address);".
Proof.
  apply (cleanup_needs_line_break (str "f(a, user1.address, user1.address);")).
  intros H. vm_compute in H.
  repeat (destruct H as [H|H]; [discriminate H|]). exact H.
Defined.



(** X7.  [fix_test.py] only inserts: the input is a subsequence of the
    output, so no character of the file is lost or moved, and the output is
    at least as long as the input. *)
Theorem fix_test_only_inserts (t : text) :
  sublist t (fix_test t) /\ length t <= length (fix_test t).
Proof.
  split; [apply fix_test_sublist|]. apply sublist_length, fix_test_sublist.
Qed.

(** X9 on the first substitution and a text it matches. *)
Lemma rules_consume_witness :
  tail_rule "user1" (str "," ++ [nl] ++ str "user1.address);")
  = Some (17, str ");")
  /\ 0 < 17.
Proof.
  split; [vm_compute; reflexivity|].
  apply (rules_consume (tail_rule "user1")
           (str "," ++ [nl] ++ str "user1.address);") 17 (str ");")).
  - left. reflexivity.
  - vm_compute. reflexivity.
Defined.

(** X10.  The substitution of line 18, [pattern.sub], at the first receiver
    of a text.  Take a call [pool.connect(u).addLiquidity(a1,a2,a3,a4,a5)]
    with [u] one of the two identifiers and five argument slots, each
    non-empty and free of commas and closing parentheses, standing in a text
    in which no receiver text [pool.connect(user1).addLiquidity(] or
    [pool.connect(user2).addLiquidity(] begins before the call.  The
    substitution copies the text before the call, turns the call into one
    with six slots, the sixth being a line break, eight blanks and
    [u.address], and goes on behind the closing parenthesis. *)
Theorem insertion_adds_sixth_argument
    (u : string) (a1 a2 a3 a4 a5 pre post : text) :
  user u ->
  is_slot a1 = true -> is_slot a2 = true -> is_slot a3 = true ->
  is_slot a4 = true -> is_slot a5 = true ->
  let body := open_call u a1 a2 a3 a4 a5 in
  begins_in (receiver "user1" "addLiquidity") pre (body ++ str ")" ++ post)
  = false ->
  begins_in (receiver "user2" "addLiquidity") pre (body ++ str ")" ++ post)
  = false ->
  re_sub pattern replace_func (pre ++ body ++ str ")" ++ post)
  = pre ++ (body ++ str "," ++ [nl] ++ str "        " ++ str u
            ++ str ".address" ++ str ")")
    ++ re_sub pattern replace_func post.
Proof. exact (first_call_rewritten u a1 a2 a3 a4 a5 pre post). Qed.

(** X10 on the five-argument call of the specification, inside a statement. *)
Lemma insertion_adds_sixth_argument_witness :
  re_sub pattern replace_func
    (str "await "
     ++ open_call "user1" (str "100") (str " 200") (str " 0") (str " 0")
          (str " deadline")
     ++ str ")" ++ str ";")
  = str "await "
    ++ (open_call "user1" (str "100") (str " 200") (str " 0") (str " 0")
          (str " deadline")
        ++ str "," ++ [nl] ++ str "        " ++ str "user1"
        ++ str ".address" ++ str ")")
    ++ re_sub pattern replace_func (str ";").
Proof.
  apply (insertion_adds_sixth_argument "user1" (str "100") (str " 200")
           (str " 0") (str " 0") (str " deadline") (str "await ") (str ";"));
    first [left; reflexivity | vm_compute; reflexivity].
Defined.

(** X11.  Every match of the two insertion patterns begins with the
    receiver text [pool.connect(user1)] or [pool.connect(user2)] followed by
    the method name and the opening parenthesis; and a text in which none of
    the four receiver texts occurs, whatever calls on other receivers it
    holds, is returned unchanged by [fix_test.py]. *)
Theorem insertion_only_at_receivers :
  (forall s r, match_here pattern s = Some r ->
     prefix_of (receiver "user1" "addLiquidity") s = true
     \/ prefix_of (receiver "user2" "addLiquidity") s = true)
  /\ (forall s r, match_here pattern2 s = Some r ->
     prefix_of (receiver "user1" "removeLiquidity") s = true
     \/ prefix_of (receiver "user2" "removeLiquidity") s = true)
  /\ (forall t,
     occurs (receiver "user1" "addLiquidity") t = false ->
     occurs (receiver "user2" "addLiquidity") t = false ->
     occurs (receiver "user1" "removeLiquidity") t = false ->
     occurs (receiver "user2" "removeLiquidity") t = false ->
     fix_test t = t).
Proof.
  split; [|split].
  - intros s r H. apply pattern_receiver in H as (u & Hu & H).
    destruct Hu as [E | E]; rewrite E in H; [left | right]; exact H.
  - intros s r H. apply pattern2_receiver in H as (u & Hu & H).
    destruct Hu as [E | E]; rewrite E in H; [left | right]; exact H.
  - intros t H1 H2 H3 H4. unfold fix_test, re_sub.
    pose proof (occurs_every_suffix _ _ H1) as K1.
    pose proof (occurs_every_suffix _ _ H2) as K2.
    pose proof (occurs_every_suffix _ _ H3) as K3.
    pose proof (occurs_every_suffix _ _ H4) as K4.
    assert (E : scan (re_rule pattern replace_func) t = t).
    { apply scan_id.
      eapply every_suffix_impl; [|exact (every_suffix_and _ _ _ K1 K2)].
      intros s [A B]. apply pattern_rule_none; assumption. }
    rewrite E. apply scan_id.
    eapply every_suffix_impl; [|exact (every_suffix_and _ _ _ K3 K4)].
    intros s [A B]. apply pattern2_rule_none; assumption.
Qed.

(** X12.  [fix_test.py] leaves the text before the first receiver as it
    is: when none of the four receiver texts begins inside [pre], whatever
    follows, the script copies [pre] and rewrites the rest as it would on
    its own.  Calls on other receivers that stand before the first call on
    [pool.connect(user1)] or [pool.connect(user2)] are therefore not
    touched. *)
Theorem text_before_receivers_kept (pre rest : text) :
  (forall X, begins_in (receiver "user1" "addLiquidity") pre X = false) ->
  (forall X, begins_in (receiver "user2" "addLiquidity") pre X = false) ->
  (forall X, begins_in (receiver "user1" "removeLiquidity") pre X = false) ->
  (forall X, begins_in (receiver "user2" "removeLiquidity") pre X = false) ->
  fix_test (pre ++ rest) = pre ++ fix_test rest.
Proof.
  intros A1 A2 R1 R2. unfold fix_test, re_sub.
  rewrite (scan_skip (re_rule pattern replace_func) pre rest).
  - apply scan_skip; [apply ReFacts.re_rule_bounded|].
    pose proof (begins_in_suffixes _ _ _ (R1 (scan (re_rule pattern replace_func) rest))) as K1.
    pose proof (begins_in_suffixes _ _ _ (R2 (scan (re_rule pattern replace_func) rest))) as K2.
    eapply every_suffix_impl; [|exact (every_suffix_and _ _ _ K1 K2)].
    intros s [H1 H2]. apply pattern2_rule_none; assumption.
  - apply ReFacts.re_rule_bounded.
  - pose proof (begins_in_suffixes _ _ _ (A1 rest)) as K1.
    pose proof (begins_in_suffixes _ _ _ (A2 rest)) as K2.
    eapply every_suffix_impl; [|exact (every_suffix_and _ _ _ K1 K2)].
    intros s [H1 H2]. apply pattern_rule_none; assumption.
Qed.

(** X12 on a call on [pool.connect(owner)] that stands before a call on
    [pool.connect(user1)]: only the latter is given the argument. *)
Lemma text_before_receivers_kept_witness :
  fix_test
    (str "pool.connect(owner).addLiquidity(a, b, c, d, e); "
     ++ str "pool.connect(user1).addLiquidity(a, b, c, d, e);")
  = str "pool.connect(owner).addLiquidity(a, b, c, d, e); "
    ++ str "pool.connect(user1).addLiquidity(a, b, c, d, e,"
    ++ [nl] ++ str "        user1.address);".
Proof.
  etransitivity.
  - apply (text_before_receivers_kept
             (str "pool.connect(owner).addLiquidity(a, b, c, d, e); ")
             (str "pool.connect(user1).addLiquidity(a, b, c, d, e);"));
      intros X; vm_compute; reflexivity.
  - vm_compute. reflexivity.
Defined.


